(** * Movielens example helpers: retrieval metrics and listwise sampling

    A shallow embedding of [tensorflow_recommenders/examples/movielens.py]:
    [evaluate] (precision@K / recall@K of an embedding retrieval model) and
    [movielens_to_listwise] with its helper [_sample_list].

    Modelling conventions:
    - identifiers ([user_id], [movie_id]) are byte strings, modelled as [string];
    - float32 / float64 values (scores, ratings, metrics) are modelled as exact
      rationals [Q]; the one non-finite value the code can produce, the [nan]
      that [np.mean] returns on an empty list, is explicit ([np_float]);
    - Python exceptions are values of [py_error] carried by [result];
    - a [dict] / [defaultdict] iterated with [.items()] is an association list
      in insertion order; the vocabulary, only ever looked up, is a [gmap];
    - what Python leaves unspecified is a parameter with its contract:
      the tie-break of [np.argsort] ([Argsort]), the iteration order of a
      [set] ([SetOrder]) and the draws of [random.sample] ([Sampler]). *)

From Stdlib Require Import QArith.
From stdpp Require Import gmap strings list fin_maps sorting.

Local Open Scope Z_scope.
Local Open Scope nat_scope.

(** ** Python values and exceptions *)

Inductive py_error : Type :=
  | KeyError (key : string)
  | ValueError
  | ZeroDivisionError
  | IndexError.

Inductive result (A : Type) : Type :=
  | Ok (a : A)
  | Raise (e : py_error).
Arguments Ok {A} a.
Arguments Raise {A} e.

#[global] Instance result_ret : MRet result := λ A a, Ok a.
#[global] Instance result_bind : MBind result := λ A B f m,
  match m with
  | Ok a => f a
  | Raise e => Raise e
  end.

(** A numpy float: a finite value, or the [nan] of an empty mean. *)
Inductive np_float : Type :=
  | Finite (q : Q)
  | NaN.

(** A record of the ratings dataset (train, test or the listwise input). *)
Record rating : Type := Rating {
  user_id : string;
  movie_id : string;
  user_rating : Q;
}.

(** ** [collections.defaultdict], in insertion order *)

Section defaultdict.
Context {V : Type} (default : V).

(** [d[k] = f(d[k])], where a missing key is first created with [default]. *)
Fixpoint dd_modify (f : V → V) (k : string) (d : list (string * V))
    : list (string * V) :=
  match d with
  | [] => [(k, f default)]
  | (k', v) :: d' =>
      if decide (k' = k) then (k', f v) :: d'
      else (k', v) :: dd_modify f k d'
  end.

(** The value read by [d[k]] (the default when the key is missing). *)
Fixpoint dd_get (k : string) (d : list (string * V)) : V :=
  match d with
  | [] => default
  | (k', v) :: d' => if decide (k' = k) then v else dd_get k d'
  end.
End defaultdict.

(** ** Sequences *)

(** [l[i]] for an index known to be a natural number. *)
Definition py_getitem {A} (l : list A) (i : nat) : result A :=
  match l !! i with
  | Some x => Ok x
  | None => Raise IndexError
  end.

(** [[l[i] for i in idx]]. *)
Definition py_getitems {A} (l : list A) (idx : list nat) : result (list A) :=
  mapM (py_getitem l) idx.

(** [l[:k]], for any integer [k] (a negative [k] counts from the end). *)
Definition py_slice_to {A} (k : Z) (l : list A) : list A :=
  if decide (0 ≤ k)%Z then take (Z.to_nat k) l
  else take (length l - Z.to_nat (- k)) l.

(** [range(n)] for an integer [n]. *)
Definition py_range (n : Z) : list nat := seq 0 (Z.to_nat n).

(** [sum(x in top for x in xs)]: Python adds the booleans as 0 and 1. *)
Definition count_in (top xs : list nat) : nat :=
  foldl (λ acc x, acc + (if decide (x ∈ top) then 1 else 0)) 0 xs.

(** [a / b] on Python integers: true division, [ZeroDivisionError] on 0. *)
Definition py_truediv (a b : Z) : result Q :=
  if decide (b = 0%Z) then Raise ZeroDivisionError
  else Ok (inject_Z a / inject_Z b)%Q.

Definition Qsum (l : list Q) : Q := foldr Qplus 0%Q l.

(** [np.mean] of a list of floats; on the empty list numpy warns and
    returns [nan]. *)
Definition np_mean (l : list Q) : np_float :=
  match l with
  | [] => NaN
  | _ => Finite (Qsum l / inject_Z (Z.of_nat (length l)))%Q
  end.

(** [np.concatenate] of the batches of a dataset column: the column itself,
    and [ValueError] ("need at least one array to concatenate") when the
    dataset is empty and there is no batch. *)
Definition np_concatenate {A} (column : list A) : result (list A) :=
  match column with
  | [] => Raise ValueError
  | _ => Ok column
  end.

(** ** [np.argsort] *)

(** [np.argsort(a)] returns the indices of [a] in ascending order of value;
    how equal values are ordered depends on the sort used (the default is
    not stable), so an implementation is any function with this contract. *)
Record Argsort : Type := {
  argsort :> list Q → list nat;
  argsort_perm : ∀ a, argsort a ≡ₚ seq 0 (length a);
  argsort_sorted : ∀ a i j x y qx qy,
    i ≤ j → argsort a !! i = Some x → argsort a !! j = Some y →
    a !! x = Some qx → a !! y = Some qy → (qx <= qy)%Q;
}.

(** ** [evaluate] *)

(** [dict(zip(movie_ids.tolist(), range(len(movie_ids))))]: entries are
    inserted in order, a later duplicate overwrites an earlier one. *)
Definition movie_vocabulary (movie_ids : list string) : gmap string nat :=
  foldl (λ v '(m, i), <[m := i]> v) ∅ (zip movie_ids (seq 0 (length movie_ids))).

(** [movie_vocabulary[m]]. *)
Definition vocabulary_getitem (vocab : gmap string nat) (m : string) : result nat :=
  match vocab !! m with
  | Some i => Ok i
  | None => Raise (KeyError m)
  end.

(** The loops of lines 58-61 and 63-66: translate each row's movie and
    append it to the user's array (an [array.array("i")]; catalogs are
    assumed to have fewer than 2^31 movies). *)
Fixpoint index_rows (vocab : gmap string nat) (rows : list rating)
    (user_to_movies : list (string * list nat)) : result (list (string * list nat)) :=
  match rows with
  | [] => Ok user_to_movies
  | row :: rows' =>
      m ← vocabulary_getitem vocab (movie_id row);
      index_rows vocab rows' (dd_modify [] (λ a, a ++ [m]) (user_id row) user_to_movies)
  end.

(** Lines 57-61: the train index, left empty when no train dataset is given. *)
Definition train_index (vocab : gmap string nat) (train : option (list rating))
    : result (list (string * list nat)) :=
  match train with
  | Some rows => index_rows vocab rows []
  | None => Ok []
  end.

(** [u @ v] for two vectors of the same dimension. *)
Definition dot (u v : list Q) : Q :=
  Qsum (zip_with Qmult u v).

(** The sentinel of line 85. *)
Definition masked_score : Q := inject_Z (-1000000).

(** [scores[train_movies] = -1e6]. *)
Definition mask_scores (scores : list Q) (train_movies : list nat) : list Q :=
  foldl (λ s i, <[i := masked_score]> s) scores train_movies.

(** Lines 77-85: the user's score of every movie, train movies masked when a
    train dataset was supplied. Reading [train_user_to_movies[user_id]] for a
    user without train rows yields the empty array (and adds the key to the
    train dictionary, which nothing reads afterwards). *)
Definition user_scores (user_model : string → list Q)
    (movie_embeddings : list (list Q))
    (train : option (list rating))
    (train_user_to_movies : list (string * list nat))
    (user : string) : list Q :=
  let user_embedding := user_model user in
  let scores := dot user_embedding <$> movie_embeddings in
  match train with
  | Some _ => mask_scores scores (dd_get [] user train_user_to_movies)
  | None => scores
  end.

(** Line 87: [np.argsort(-scores)[:k]]. *)
Definition top_k (A : Argsort) (scores : list Q) (k : Z) : list nat :=
  py_slice_to k (A (Qopp <$> scores)).

(** Lines 88-90 for one user: the pair (precision, recall). *)
Definition user_metrics (top_movies test_movies : list nat) (k : Z) : result (Q * Q) :=
  let num_test_movies_in_k := count_in top_movies test_movies in
  p ← py_truediv (Z.of_nat num_test_movies_in_k) k;
  r ← py_truediv (Z.of_nat num_test_movies_in_k) (Z.of_nat (length test_movies));
  Ok (p, r).

(** The loop of lines 76-90, threading the two lists of values. *)
Fixpoint metric_loop (A : Argsort) (user_model : string → list Q)
    (movie_embeddings : list (list Q))
    (train : option (list rating))
    (train_user_to_movies : list (string * list nat))
    (k : Z)
    (items : list (string * list nat))
    (precision_values recall_values : list Q) : result (list Q * list Q) :=
  match items with
  | [] => Ok (precision_values, recall_values)
  | (user, test_movies) :: items' =>
      let scores :=
        user_scores user_model movie_embeddings train train_user_to_movies user in
      let top_movies := top_k A scores k in
      '(p, r) ← user_metrics top_movies test_movies k;
      metric_loop A user_model movie_embeddings train train_user_to_movies k
        items' (precision_values ++ [p]) (recall_values ++ [r])
  end.

Record metrics : Type := Metrics {
  precision_at_k : np_float;
  recall_at_k : np_float;
}.

(** [evaluate(user_model, movie_model, test, movies, train, k)].
    [movies] is the [movie_id] column of the movies dataset. *)
Definition evaluate (A : Argsort)
    (user_model movie_model : string → list Q)
    (test : list rating) (movies : list string)
    (train : option (list rating)) (k : Z) : result metrics :=
  movie_ids ← np_concatenate movies;
  let vocab := movie_vocabulary movie_ids in
  train_user_to_movies ← train_index vocab train;
  test_user_to_movies ← index_rows vocab test [];
  movie_embeddings ← np_concatenate (movie_model <$> movies);
  '(precision_values, recall_values) ←
    metric_loop A user_model movie_embeddings train train_user_to_movies k
      test_user_to_movies [] [];
  Ok {| precision_at_k := np_mean precision_values;
        recall_at_k := np_mean recall_values |}.

(** ** [random.sample] and Python sets *)

(** The iteration order of a [set]: some enumeration of its elements. For
    byte strings it follows their hashes, which Python salts per process
    unless [PYTHONHASHSEED] is fixed, so it is a parameter of a run.
    ([random.sample] accepts a set up to Python 3.10.) *)
Record SetOrder : Type := {
  set_tuple :> gset string → list string;
  set_tuple_perm : ∀ s, set_tuple s ≡ₚ elements s;
}.

(** The generator behind the [random] module. [random.sample] raises
    [ValueError] unless [0 <= k <= n], and otherwise selects [k] distinct
    positions of its population of size [n] from the generator's draws
    alone, whatever the elements are, and returns the elements at these
    positions; which positions are selected is the generator's business. *)
Record Sampler : Type := {
  rng_state : Type;
  sample_positions : rng_state → nat → Z → option (list nat * rng_state);
  sample_positions_None : ∀ g n k,
    (k < 0 ∨ Z.of_nat n < k)%Z → sample_positions g n k = None;
  sample_positions_Some : ∀ g n k,
    (0 ≤ k ≤ Z.of_nat n)%Z →
    ∃ idx g', sample_positions g n k = Some (idx, g') ∧
      length idx = Z.to_nat k ∧ NoDup idx ∧ Forall (λ i, i < n) idx;
}.

(** [random.sample(population, k)], the population given as a sequence (a
    set is first turned into a tuple, in its iteration order). *)
Definition random_sample {A} (S : Sampler) (g : rng_state S)
    (population : list A) (k : Z) : result (list A * rng_state S) :=
  match sample_positions S g (length population) k with
  | None => Raise ValueError
  | Some (idx, g') =>
      xs ← py_getitems population idx;
      Ok (xs, g')
  end.

(** ** [_sample_list] and [movielens_to_listwise] *)

(** The value of [example_lists_by_user[user_id]]: two lists that grow
    together. *)
Record feature_lists : Type := FeatureLists {
  fl_movie_id : list string;
  fl_user_rating : list Q;
}.

(** One element of the returned datasets. *)
Record list_example : Type := ListExample {
  le_user_id : string;
  le_movie_id : list string;
  le_user_rating : list Q;
}.

(** Lines 98-130, run from the generator state [g]. Each sampled item is
    taken to be a one-element tensor, so that the [tf.concat] of the sampled
    items is the sequence of the items. *)
Definition _sample_list (S : Sampler) (O : SetOrder) (g : rng_state S)
    (negative_movie_id_set : gset string)
    (lists : feature_lists)
    (num_pos_examples_per_list num_neg_examples_per_list : Z)
    : result ((list string * list Q) * rng_state S) :=
  '(sampled_indices, g) ←
    random_sample S g (seq 0 (length (fl_movie_id lists))) num_pos_examples_per_list;
  sampled_pos_movie_ids ← py_getitems (fl_movie_id lists) sampled_indices;
  sampled_pos_ratings ← py_getitems (fl_user_rating lists) sampled_indices;
  '(sampled_neg_movie_ids, g) ←
    random_sample S g (O negative_movie_id_set) num_neg_examples_per_list;
  let sampled_neg_ratings := (λ _, 0%Q) <$> py_range num_neg_examples_per_list in
  let sampled_movie_ids := sampled_pos_movie_ids ++ sampled_neg_movie_ids in
  let sampled_ratings := sampled_pos_ratings ++ sampled_neg_ratings in
  Ok ((sampled_movie_ids, sampled_ratings), g).

(** Lines 179-185, the body of the grouping loop: append the movie and the
    rating of one example to the lists of its user. *)
Definition add_example (by_user : list (string * feature_lists)) (example : rating)
    : list (string * feature_lists) :=
  dd_modify (FeatureLists [] [])
    (λ fl, FeatureLists (fl_movie_id fl ++ [movie_id example])
                        (fl_user_rating fl ++ [user_rating example]))
    (user_id example) by_user.

(** Lines 174-185: group the ratings by user. *)
Definition group_by_user (rating_dataset : list rating) : list (string * feature_lists) :=
  foldl add_example [] rating_dataset.

(** One of the two inner loops (lines 198-207 and 208-217): [n] lists of one
    user, appended to [slices]. *)
Fixpoint sample_lists (S : Sampler) (O : SetOrder) (g : rng_state S)
    (negative_movie_id_set : gset string) (user : string) (lists : feature_lists)
    (num_pos num_neg : Z) (n : nat) (slices : list list_example)
    : result (list list_example * rng_state S) :=
  match n with
  | 0 => Ok (slices, g)
  | S n' =>
      '((sampled_movie_ids, sampled_ratings), g) ←
        _sample_list S O g negative_movie_id_set lists num_pos num_neg;
      sample_lists S O g negative_movie_id_set user lists num_pos num_neg n'
        (slices ++ [ListExample user sampled_movie_ids sampled_ratings])
  end.

(** The loop over users of lines 192-217. *)
Fixpoint listwise_loop (S : Sampler) (O : SetOrder) (g : rng_state S)
    (movie_id_vocab : gset string)
    (items : list (string * feature_lists))
    (train_num_list_per_user test_num_list_per_user : Z)
    (num_pos num_neg : Z)
    (train_tensor_slices test_tensor_slices : list list_example)
    : result ((list list_example * list list_example) * rng_state S) :=
  match items with
  | [] => Ok ((train_tensor_slices, test_tensor_slices), g)
  | (user, lists) :: items' =>
      let rated_movie_id_set : gset string := list_to_set (fl_movie_id lists) in
      let negative_movie_id_set := movie_id_vocab ∖ rated_movie_id_set in
      '(train_tensor_slices, g) ←
        sample_lists S O g negative_movie_id_set user lists num_pos num_neg
          (Z.to_nat train_num_list_per_user) train_tensor_slices;
      '(test_tensor_slices, g) ←
        sample_lists S O g negative_movie_id_set user lists num_pos num_neg
          (Z.to_nat test_num_list_per_user) test_tensor_slices;
      listwise_loop S O g movie_id_vocab items'
        train_num_list_per_user test_num_list_per_user num_pos num_neg
        train_tensor_slices test_tensor_slices
  end.

(** [movielens_to_listwise(rating_dataset, movie_dataset, ...)], run from the
    generator state [g]. [movie_dataset] is the [movie_id] column of the
    movies dataset. *)
Definition movielens_to_listwise (S : Sampler) (O : SetOrder) (g : rng_state S)
    (rating_dataset : list rating) (movie_dataset : list string)
    (train_num_list_per_user test_num_list_per_user : Z)
    (num_pos_examples_per_list num_neg_examples_per_list : Z)
    : result ((list list_example * list list_example) * rng_state S) :=
  let example_lists_by_user := group_by_user rating_dataset in
  let movie_id_vocab : gset string := list_to_set movie_dataset in
  listwise_loop S O g movie_id_vocab example_lists_by_user
    train_num_list_per_user test_num_list_per_user
    num_pos_examples_per_list num_neg_examples_per_list [] [].

(** ** Definitions used to state the properties *)

(** The entry of a key, as [d.get(k)] would read it. *)
Fixpoint dd_lookup {V : Type} (k : string) (d : list (string * V)) : option V :=
  match d with
  | [] => None
  | (k', v) :: d' => if decide (k' = k) then Some v else dd_lookup k d'
  end.

Definition default_or {V : Type} (default : V) (o : option V) : V :=
  from_option id default o.

(** The K indices selected for a user. *)
Definition selected (A : Argsort) (user_model : string → list Q)
    (movie_embeddings : list (list Q)) (train : option (list rating))
    (train_user_to_movies : list (string * list nat)) (k : Z)
    (user : string) : list nat :=
  top_k A (user_scores user_model movie_embeddings train train_user_to_movies user) k.

(** The order of two positions by the value they hold in [a]. *)
Definition value_le (a : list Q) (x y : nat) : Prop :=
  ∀ qx qy, a !! x = Some qx → a !! y = Some qy → (qx <= qy)%Q.

(** *** Precision and recall in the words of the specification *)

(** Step 6: how many of the user's test items are among the selected K. *)
Definition hits (top_movies test_movies : list nat) : nat :=
  length (filter (λ x, x ∈ top_movies) test_movies).

(** Step 7: [precision = hits / k]. *)
Definition spec_precision (top_movies test_movies : list nat) (k : Z) : Q :=
  (inject_Z (Z.of_nat (hits top_movies test_movies)) / inject_Z k)%Q.

(** Step 7: [recall = hits / (number of test items)]. *)
Definition spec_recall (top_movies test_movies : list nat) : Q :=
  (inject_Z (Z.of_nat (hits top_movies test_movies))
   / inject_Z (Z.of_nat (length test_movies)))%Q.

Definition arithmetic_mean (l : list Q) : Q :=
  (Qsum l / inject_Z (Z.of_nat (length l)))%Q.

(** *** List examples *)

(** The ratings of a user, in the order of the dataset. *)
Definition rows_of (rating_dataset : list rating) (user : string) : list rating :=
  filter (λ r, user_id r = user) rating_dataset.

(** The movies of the catalog the user did not rate. *)
Definition unrated (rating_dataset : list rating) (movie_dataset : list string)
    (user : string) : gset string :=
  list_to_set movie_dataset ∖ list_to_set (movie_id <$> rows_of rating_dataset user).

(** The two lists of a user have the same length. *)
Definition aligned (lists : feature_lists) : Prop :=
  length (fl_movie_id lists) = length (fl_user_rating lists).

(** A list example of a user: some rows of the user read at [num_pos]
    distinct positions, then [num_neg] distinct movies of [negatives], each
    rated 0. *)
Definition is_sample (lists : feature_lists) (negatives : gset string)
    (num_pos num_neg : Z) (ids : list string) (ratings : list Q) : Prop :=
  (0 ≤ num_pos ≤ Z.of_nat (length (fl_movie_id lists)))%Z ∧
  (0 ≤ num_neg ≤ Z.of_nat (size negatives))%Z ∧
  ∃ idx pos_ids pos_ratings neg_ids,
    NoDup idx ∧ length idx = Z.to_nat num_pos ∧
    Forall2 (λ i m, fl_movie_id lists !! i = Some m) idx pos_ids ∧
    Forall2 (λ i q, fl_user_rating lists !! i = Some q) idx pos_ratings ∧
    NoDup neg_ids ∧ length neg_ids = Z.to_nat num_neg ∧
    (∀ m, m ∈ neg_ids → m ∈ negatives) ∧
    ids = pos_ids ++ neg_ids ∧
    ratings = pos_ratings ++ replicate (Z.to_nat num_neg) 0%Q.

(** A list example produced for one of the users of [items]. *)
Definition produced_by (num_pos num_neg : Z) (movie_id_vocab : gset string)
    (items : list (string * feature_lists)) (e : list_example) : Prop :=
  ∃ lists, (le_user_id e, lists) ∈ items ∧
    is_sample lists (movie_id_vocab ∖ list_to_set (fl_movie_id lists))
      num_pos num_neg (le_movie_id e) (le_user_rating e).

(** ** Reference implementations of the three contracts

    They make the embedding executable: a merge sort for [np.argsort], the
    canonical and the reversed enumeration for set iteration, and a
    draw-and-remove sampler over a linear congruential generator. *)

#[global] Instance Qle_dec (x y : Q) : Decision (x <= y)%Q.
Proof. unfold Qle. apply _. Defined.

Definition score_le (p q : Q * nat) : Prop := (p.1 <= q.1)%Q.

#[global] Instance score_le_dec (p q : Q * nat) : Decision (score_le p q).
Proof. unfold score_le. apply _. Defined.

Definition merge_argsort (a : list Q) : list nat :=
  (merge_sort score_le (zip a (seq 0 (length a)))).*2.

(** The same sort fed with the pairs in decreasing index order: another
    tie-break. *)
Definition reversed_merge_argsort (a : list Q) : list nat :=
  (merge_sort score_le (reverse (zip a (seq 0 (length a))))).*2.

Definition lcg_next (g : Z) : Z :=
  ((g * 1103515245 + 12345) `mod` 2147483648)%Z.

(** Draw [k] elements of [pool], removing each one drawn. *)
Fixpoint lcg_draw (g : Z) (pool : list nat) (k : nat) : list nat * Z :=
  match k with
  | 0 => ([], g)
  | S k' =>
      let j := Z.to_nat (g `mod` Z.of_nat (length pool))%Z in
      match pool !! j with
      | Some x =>
          let '(r, g') := lcg_draw (lcg_next g) (delete j pool) k' in
          (x :: r, g')
      | None => ([], g)
      end
  end.

Definition lcg_sample_positions (g : Z) (n : nat) (k : Z) : option (list nat * Z) :=
  if decide (0 ≤ k ≤ Z.of_nat n)%Z
  then Some (lcg_draw g (seq 0 n) (Z.to_nat k))
  else None.

#[global] Instance score_le_total : Total score_le.
Proof.
  intros p q. unfold score_le.
  destruct (Qlt_le_dec p.1 q.1) as [Hlt | Hle]; [left | right]; [|done].
  by apply Qlt_le_weak.
Qed.

#[global] Instance score_le_trans : Transitive score_le.
Proof. intros p q r. unfold score_le. apply Qle_trans. Qed.

Lemma StronglySorted_lookup {A} (R : relation A) `{!Reflexive R} (l : list A) i j x y :
  StronglySorted R l → i ≤ j → l !! i = Some x → l !! j = Some y → R x y.
Proof.
  intros Hs. revert i j. induction Hs as [| a l Hs IH Hall]; intros i j Hij Hi Hj.
  - done.
  - destruct i as [| i], j as [| j]; simplify_eq/=.
    + done.
    + rewrite Forall_forall in Hall. apply Hall. by eapply list_elem_of_lookup_2.
    + lia.
    + apply (IH i j); [lia | done..].
Qed.

Lemma zip_seq_lookup {A} (a : list A) (q : A) (x : nat) :
  (q, x) ∈ zip a (seq 0 (length a)) → a !! x = Some q.
Proof.
  intros [i Hi]%list_elem_of_lookup_1.
  apply lookup_zip_with_Some in Hi as (q' & x' & ? & Hq & Hx); simplify_eq.
  apply lookup_seq in Hx as [-> _]. done.
Qed.

Lemma merge_argsort_perm (a : list Q) : merge_argsort a ≡ₚ seq 0 (length a).
Proof.
  unfold merge_argsort. rewrite merge_sort_Permutation.
  rewrite snd_zip; [done |]. by rewrite length_seq.
Qed.

Lemma merge_argsort_sorted (a : list Q) i j x y qx qy :
  i ≤ j → merge_argsort a !! i = Some x → merge_argsort a !! j = Some y →
  a !! x = Some qx → a !! y = Some qy → (qx <= qy)%Q.
Proof.
  unfold merge_argsort. intros Hij Hi Hj Hx Hy.
  assert (Hin : ∀ p k, merge_sort score_le (zip a (seq 0 (length a))) !! k = Some p →
                       a !! p.2 = Some p.1).
  { intros [q z] k Hk. apply zip_seq_lookup.
    rewrite <- (merge_sort_Permutation score_le). by eapply list_elem_of_lookup_2. }
  apply list_lookup_fmap_Some in Hi as (p & Hpx & Hi).
  apply list_lookup_fmap_Some in Hj as (q & Hqy & Hj).
  pose proof (Hin _ _ Hi) as Hi'. pose proof (Hin _ _ Hj) as Hj'.
  rewrite <- Hpx, Hx in Hi'. rewrite <- Hqy, Hy in Hj'.
  assert (Hrefl : Reflexive score_le) by (intros r; unfold score_le; apply Qle_refl).
  assert (Hle : score_le p q).
  { eapply (StronglySorted_lookup score_le); [| exact Hij | exact Hi | exact Hj].
    apply StronglySorted_merge_sort; apply _. }
  unfold score_le in Hle. by simplify_eq.
Qed.

(** [np.argsort] as a merge sort on (value, index) pairs. *)
Definition stable_argsort : Argsort :=
  {| argsort := merge_argsort;
     argsort_perm := merge_argsort_perm;
     argsort_sorted := merge_argsort_sorted |}.

Lemma reversed_merge_argsort_perm (a : list Q) :
  reversed_merge_argsort a ≡ₚ seq 0 (length a).
Proof.
  unfold reversed_merge_argsort. rewrite merge_sort_Permutation, reverse_Permutation.
  rewrite snd_zip; [done |]. by rewrite length_seq.
Qed.

Lemma reversed_merge_argsort_sorted (a : list Q) i j x y qx qy :
  i ≤ j → reversed_merge_argsort a !! i = Some x → reversed_merge_argsort a !! j = Some y →
  a !! x = Some qx → a !! y = Some qy → (qx <= qy)%Q.
Proof.
  unfold reversed_merge_argsort. intros Hij Hi Hj Hx Hy.
  set (ps := reverse (zip a (seq 0 (length a)))) in *.
  assert (Hin : ∀ p k, merge_sort score_le ps !! k = Some p → a !! p.2 = Some p.1).
  { intros [q z] k Hk. apply zip_seq_lookup.
    rewrite <- (reverse_Permutation (zip a _)).
    rewrite <- (merge_sort_Permutation score_le). by eapply list_elem_of_lookup_2. }
  apply list_lookup_fmap_Some in Hi as (p & Hpx & Hi).
  apply list_lookup_fmap_Some in Hj as (q & Hqy & Hj).
  pose proof (Hin _ _ Hi) as Hi'. pose proof (Hin _ _ Hj) as Hj'.
  rewrite <- Hpx, Hx in Hi'. rewrite <- Hqy, Hy in Hj'.
  assert (Hrefl : Reflexive score_le) by (intros r; unfold score_le; apply Qle_refl).
  assert (Hle : score_le p q).
  { eapply (StronglySorted_lookup score_le); [| exact Hij | exact Hi | exact Hj].
    apply StronglySorted_merge_sort; apply _. }
  unfold score_le in Hle. by simplify_eq.
Qed.

(** [np.argsort] with another tie-break. *)
Definition reversed_argsort : Argsort :=
  {| argsort := reversed_merge_argsort;
     argsort_perm := reversed_merge_argsort_perm;
     argsort_sorted := reversed_merge_argsort_sorted |}.

Lemma elements_perm (s : gset string) : elements s ≡ₚ elements s.
Proof. done. Qed.

Lemma reverse_elements_perm (s : gset string) : reverse (elements s) ≡ₚ elements s.
Proof. apply reverse_Permutation. Qed.

(** Two iteration orders of the same sets, as two processes may have. *)
Definition canonical_order : SetOrder :=
  {| set_tuple := elements; set_tuple_perm := elements_perm |}.

Definition reversed_order : SetOrder :=
  {| set_tuple := λ s, reverse (elements s); set_tuple_perm := reverse_elements_perm |}.

Lemma lcg_draw_spec (g : Z) (pool : list nat) (k : nat) :
  NoDup pool → k ≤ length pool →
  length (lcg_draw g pool k).1 = k ∧ NoDup (lcg_draw g pool k).1 ∧
  (lcg_draw g pool k).1 ⊆ pool.
Proof.
  revert g pool. induction k as [| k IH]; intros g pool Hnd Hk; simpl.
  - split_and!; [done | constructor | set_solver].
  - set (j := Z.to_nat (g `mod` Z.of_nat (length pool))%Z).
    assert (Hj : j < length pool).
    { subst j. pose proof (Z.mod_pos_bound g (Z.of_nat (length pool))). lia. }
    destruct (lookup_lt_is_Some_2 _ _ Hj) as [x Hx]. rewrite Hx.
    pose proof (delete_Permutation _ _ _ Hx) as Hperm.
    assert (Hnd' : NoDup (x :: delete j pool)) by by rewrite <- Hperm.
    apply NoDup_cons in Hnd' as [Hnotin Hnd'].
    destruct (IH (lcg_next g) (delete j pool) Hnd') as (Hlen & Hndr & Hsub).
    { rewrite length_delete; [lia | by eexists]. }
    destruct (lcg_draw (lcg_next g) (delete j pool) k) as [r g']; simpl in *.
    split_and!.
    + by rewrite Hlen.
    + apply NoDup_cons. split; [| done]. intros Hin. apply Hnotin. by apply Hsub.
    + intros y [-> | Hy]%elem_of_cons.
      * by eapply list_elem_of_lookup_2.
      * rewrite Hperm. right. by apply Hsub.
Qed.

Lemma lcg_sample_positions_None (g : Z) (n : nat) (k : Z) :
  (k < 0 ∨ Z.of_nat n < k)%Z → lcg_sample_positions g n k = None.
Proof. intros Hk. unfold lcg_sample_positions. case_decide; [lia | done]. Qed.

Lemma lcg_sample_positions_Some (g : Z) (n : nat) (k : Z) :
  (0 ≤ k ≤ Z.of_nat n)%Z →
  ∃ idx g', lcg_sample_positions g n k = Some (idx, g') ∧
    length idx = Z.to_nat k ∧ NoDup idx ∧ Forall (λ i, i < n) idx.
Proof.
  intros Hk. unfold lcg_sample_positions. case_decide; [| lia].
  destruct (lcg_draw_spec g (seq 0 n) (Z.to_nat k)) as (Hlen & Hnd & Hsub).
  { apply NoDup_seq. }
  { rewrite length_seq. lia. }
  destruct (lcg_draw g (seq 0 n) (Z.to_nat k)) as [idx g'] eqn:Hd; simpl in *.
  exists idx, g'. split_and!; [done..|].
  apply Forall_forall. intros i Hi. apply Hsub, elem_of_seq in Hi. lia.
Qed.

(** A seedable sampler: the generator state is the seed. *)
Definition lcg_sampler : Sampler :=
  {| rng_state := Z;
     sample_positions := lcg_sample_positions;
     sample_positions_None := lcg_sample_positions_None;
     sample_positions_Some := lcg_sample_positions_Some |}.

(** ** A small catalog for the examples *)

(** One-dimensional embeddings: every user is [1], so that a movie's score
    is its embedding: 3 for [m1], 2 for [m2], 1 for any other movie. *)
Definition example_user_model (user : string) : list Q := [1%Q].

Definition example_movie_model (movie : string) : list Q :=
  if decide (movie = "m1"%string) then [3%Q]
  else if decide (movie = "m2"%string) then [2%Q]
  else [1%Q].

(** A row of a dataset whose rating plays no role. *)
Definition watch (user movie : string) : rating := Rating user movie 0.

(** * Properties *)

(** ** The vocabulary *)

Lemma movie_vocabulary_snoc (movie_ids : list string) (m : string) :
  movie_vocabulary (movie_ids ++ [m])
  = <[m := length movie_ids]> (movie_vocabulary movie_ids).
Proof.
  unfold movie_vocabulary.
  rewrite length_app, seq_app, zip_with_app by (by rewrite length_seq).
  by rewrite foldl_app.
Qed.

(** Decoding an index the vocabulary gives returns the identifier, whatever
    the catalog (a duplicated identifier keeps its last position). *)
Lemma movie_vocabulary_lookup_Some (movie_ids : list string) (m : string) (i : nat) :
  movie_vocabulary movie_ids !! m = Some i → movie_ids !! i = Some m.
Proof.
  revert m i. induction movie_ids as [| x ids IH] using rev_ind; intros m i.
  - done.
  - rewrite movie_vocabulary_snoc. destruct (decide (x = m)) as [-> | Hne].
    + rewrite lookup_insert_eq. intros [= <-].
      by rewrite lookup_app_r, Nat.sub_diag.
    + rewrite lookup_insert_ne by done. intros Hi%IH.
      rewrite lookup_app_l; [done |]. by eapply lookup_lt_Some.
Qed.

Lemma movie_vocabulary_is_Some (movie_ids : list string) (m : string) :
  is_Some (movie_vocabulary movie_ids !! m) ↔ m ∈ movie_ids.
Proof.
  induction movie_ids as [| x ids IH] using rev_ind.
  - split; [by intros [? ?] | by intros ?%elem_of_nil].
  - rewrite movie_vocabulary_snoc, elem_of_app, list_elem_of_singleton.
    destruct (decide (x = m)) as [-> | Hne].
    + rewrite lookup_insert_eq. split; [by right | by eexists].
    + rewrite lookup_insert_ne by done. rewrite IH.
      split; [by left | intros [? | ?]; [done | congruence]].
Qed.

Lemma movie_vocabulary_lookup_NoDup (movie_ids : list string) (m : string) (i : nat) :
  NoDup movie_ids → movie_ids !! i = Some m →
  movie_vocabulary movie_ids !! m = Some i.
Proof.
  intros Hnd Hi.
  destruct (proj2 (movie_vocabulary_is_Some movie_ids m)) as [j Hj].
  { by eapply list_elem_of_lookup_2. }
  pose proof (movie_vocabulary_lookup_Some _ _ _ Hj) as Hj'.
  by rewrite (NoDup_lookup _ _ _ _ Hnd Hi Hj').
Qed.

(** Distinct identifiers never share an index. *)
Lemma movie_vocabulary_inj (movie_ids : list string) (m m' : string) (i : nat) :
  movie_vocabulary movie_ids !! m = Some i →
  movie_vocabulary movie_ids !! m' = Some i → m = m'.
Proof.
  intros H1%movie_vocabulary_lookup_Some H2%movie_vocabulary_lookup_Some. congruence.
Qed.

(** The round trip needs no distinctness: every identifier of a catalog,
    duplicated or not, encodes to an index at which the catalog array holds
    that identifier. *)
Theorem vocabulary_round_trip (movie_ids : list string) (m : string) :
  m ∈ movie_ids →
  ∃ i, vocabulary_getitem (movie_vocabulary movie_ids) m = Ok i ∧
       movie_ids !! i = Some m.
Proof.
  intros [i Hi]%movie_vocabulary_is_Some. exists i.
  unfold vocabulary_getitem. rewrite Hi. split; [done |].
  by apply movie_vocabulary_lookup_Some.
Qed.

Lemma vocabulary_round_trip_witness :
  ∃ i, vocabulary_getitem (movie_vocabulary ["m1"; "m2"; "m1"]%string) "m1"%string = Ok i ∧
       ["m1"; "m2"; "m1"]%string !! i = Some "m1"%string.
Proof.
  apply (vocabulary_round_trip ["m1"; "m2"; "m1"]%string "m1"%string). by left.
Defined.

(** C9. For a catalog of N distinct identifiers the vocabulary is a
    bijection between the catalog and the indices 0..N-1: every catalog
    identifier encodes to an index below N from which the catalog array
    decodes it back; every index below N is the code of the identifier at
    that position; only catalog identifiers have a code; and two
    identifiers never share a code. *)
Theorem vocabulary_bijection (movie_ids : list string) :
  NoDup movie_ids →
  (∀ m, m ∈ movie_ids →
     ∃ i, vocabulary_getitem (movie_vocabulary movie_ids) m = Ok i ∧
          i < length movie_ids ∧ movie_ids !! i = Some m) ∧
  (∀ i, i < length movie_ids →
     ∃ m, movie_ids !! i = Some m ∧
          vocabulary_getitem (movie_vocabulary movie_ids) m = Ok i) ∧
  (∀ m i, vocabulary_getitem (movie_vocabulary movie_ids) m = Ok i →
     m ∈ movie_ids ∧ i < length movie_ids) ∧
  (∀ m m' i, vocabulary_getitem (movie_vocabulary movie_ids) m = Ok i →
     vocabulary_getitem (movie_vocabulary movie_ids) m' = Ok i → m = m').
Proof.
  intros Hnd. unfold vocabulary_getitem. split_and!.
  - intros m [i Hi]%movie_vocabulary_is_Some. exists i. rewrite Hi.
    apply movie_vocabulary_lookup_Some in Hi.
    split_and!; [done | by eapply lookup_lt_Some | done].
  - intros i [m Hm]%lookup_lt_is_Some_2. exists m. split; [done |].
    by rewrite (movie_vocabulary_lookup_NoDup _ _ _ Hnd Hm).
  - intros m i Hi.
    destruct (movie_vocabulary movie_ids !! m) as [j |] eqn:Hj; [| done].
    injection Hi as ->. apply movie_vocabulary_lookup_Some in Hj.
    split; [by eapply list_elem_of_lookup_2 | by eapply lookup_lt_Some].
  - intros m m' i Hm Hm'.
    destruct (movie_vocabulary movie_ids !! m) as [j |] eqn:Hj; [| done].
    destruct (movie_vocabulary movie_ids !! m') as [j' |] eqn:Hj'; [| done].
    injection Hm as ->. injection Hm' as ->. by eapply movie_vocabulary_inj.
Qed.

Lemma vocabulary_bijection_witness :
  let movie_ids := ["m1"; "m2"; "m3"]%string in
  vocabulary_getitem (movie_vocabulary movie_ids) "m2"%string = Ok 1 ∧
  movie_ids !! 1 = Some "m2"%string.
Proof.
  intros movie_ids.
  assert (Hnd : NoDup movie_ids) by (apply (bool_decide_unpack _); vm_compute; exact I).
  destruct (vocabulary_bijection movie_ids Hnd) as (_ & Hdec & _ & _).
  destruct (Hdec 1) as (m & Hm & Henc); [simpl; lia |].
  simpl in Hm. injection Hm as <-. done.
Defined.

(** ** The insertion-ordered [defaultdict] *)

Section dd_lemmas.
Context {V : Type} (default : V).
Implicit Types (d : list (string * V)) (f : V → V) (k u : string) (v : V).

Lemma dd_modify_keys f k d :
  (dd_modify default f k d).*1 = if decide (k ∈ (d.*1)) then d.*1 else d.*1 ++ [k].
Proof.
  induction d as [| [k' v'] d IH]; cbn [dd_modify].
  - rewrite decide_False; [done | apply not_elem_of_nil].
  - rewrite fmap_cons. cbn [fst].
    destruct (decide (k' = k)) as [-> | Hne]; rewrite fmap_cons; cbn [fst].
    + rewrite decide_True; [done | by left].
    + rewrite IH. destruct (decide (k ∈ d.*1)) as [Hin | Hnin].
      * rewrite decide_True; [done | by right].
      * rewrite decide_False; [done |]. intros [? | ?]%elem_of_cons; congruence.
Qed.

Lemma dd_modify_NoDup f k d :
  NoDup d.*1 → NoDup (dd_modify default f k d).*1.
Proof.
  intros Hnd. rewrite dd_modify_keys. case_decide as Hin; [done |].
  apply NoDup_app. split_and!; [done | | apply NoDup_singleton].
  intros x Hx ->%list_elem_of_singleton. done.
Qed.

Lemma dd_lookup_modify f k d u :
  dd_lookup u (dd_modify default f k d)
  = if decide (u = k) then Some (f (default_or default (dd_lookup k d))) else dd_lookup u d.
Proof.
  induction d as [| [k' v'] d IH]; cbn [dd_modify dd_lookup].
  - repeat case_decide; by simplify_eq.
  - destruct (decide (k' = k)) as [-> | Hne]; cbn [dd_lookup]; [| rewrite IH];
      repeat case_decide; by simplify_eq/=.
Qed.

Lemma dd_lookup_None k d : dd_lookup k d = None ↔ k ∉ (d.*1).
Proof.
  induction d as [| [k' v'] d IH]; cbn [dd_lookup].
  - split; [intros _; apply not_elem_of_nil | done].
  - rewrite fmap_cons, not_elem_of_cons. cbn [fst].
    destruct (decide (k' = k)) as [-> | Hne].
    + split; [done | by intros [? _]].
    + rewrite IH. split; [by split | by intros [_ ?]].
Qed.

Lemma elem_of_dd_lookup k v d :
  NoDup (d.*1) → (k, v) ∈ d ↔ dd_lookup k d = Some v.
Proof.
  induction d as [| [k' v'] d IH]; cbn [dd_lookup]; intros Hnd.
  - split; [by intros ?%elem_of_nil | done].
  - rewrite fmap_cons in Hnd. apply NoDup_cons in Hnd as [Hk' Hnd].
    rewrite elem_of_cons, (IH Hnd). destruct (decide (k' = k)) as [-> | Hne].
    + split.
      * intros [Heq | Hl]; [congruence |].
        apply dd_lookup_None in Hk'. cbn [fst] in Hk'. congruence.
      * intros [= ->]. by left.
    + split; [intros [Heq | Hl]; [congruence | done] | by right].
Qed.

Lemma dd_get_lookup k d : dd_get default k d = default_or default (dd_lookup k d).
Proof.
  induction d as [| [k' v'] d IH]; cbn [dd_get dd_lookup]; [done |].
  by destruct (decide (k' = k)).
Qed.
End dd_lemmas.

(** ** The per-user interaction index *)

Lemma index_rows_NoDup (vocab : gmap string nat) (rows : list rating)
    (d d' : list (string * list nat)) :
  NoDup (d.*1) → index_rows vocab rows d = Ok d' → NoDup (d'.*1).
Proof.
  revert d. induction rows as [| row rows IH]; intros d Hnd; cbn [index_rows].
  - by intros [= <-].
  - unfold vocabulary_getitem. destruct (vocab !! movie_id row) as [m |]; [| done].
    apply IH. by apply dd_modify_NoDup.
Qed.

Lemma index_rows_keys_NoDup (vocab : gmap string nat) (rows : list rating)
    (d : list (string * list nat)) :
  index_rows vocab rows [] = Ok d → NoDup (d.*1).
Proof. apply index_rows_NoDup. apply NoDup_nil_2. Qed.

(** After indexing, the entry of a user holds the indices of the user's rows,
    in order, after what the entry held before. *)
Lemma index_rows_lookup (vocab : gmap string nat) (rows : list rating)
    (d d' : list (string * list nat)) (u : string) :
  index_rows vocab rows d = Ok d' →
  ∃ ms, Forall2 (λ r m, vocab !! movie_id r = Some m)
                (filter (λ r, user_id r = u) rows) ms ∧
        dd_lookup u d' = match ms with
                         | [] => dd_lookup u d
                         | _ => Some (default_or [] (dd_lookup u d) ++ ms)
                         end.
Proof.
  revert d. induction rows as [| row rows IH]; intros d; cbn [index_rows].
  - intros [= <-]. exists []. split; [constructor | done].
  - unfold vocabulary_getitem.
    destruct (vocab !! movie_id row) as [m |] eqn:Hm; [| done].
    intros (ms & Hms & Hd')%IH. rewrite dd_lookup_modify in Hd'.
    rewrite filter_cons. destruct (decide (user_id row = u)) as [Hu | Hu].
    + exists (m :: ms). split; [by constructor |].
      rewrite decide_True in Hd' by done. rewrite Hu in Hd'.
      cbn [default_or from_option id] in Hd'. rewrite <- app_assoc in Hd'.
      by destruct ms.
    + exists ms. split; [done |]. by rewrite decide_False in Hd' by done.
Qed.

Lemma index_rows_entry (vocab : gmap string nat) (rows : list rating)
    (d : list (string * list nat)) (u : string) (ms : list nat) :
  index_rows vocab rows [] = Ok d →
  (u, ms) ∈ d →
  ms ≠ [] ∧
  Forall2 (λ r m, vocab !! movie_id r = Some m) (filter (λ r, user_id r = u) rows) ms.
Proof.
  intros Hd Hin.
  assert (Hnd : NoDup (d.*1)) by by eapply index_rows_keys_NoDup.
  apply elem_of_dd_lookup in Hin; [| done].
  destruct (index_rows_lookup _ _ _ _ u Hd) as (ms' & Hms' & Hl).
  rewrite Hin in Hl. destruct ms' as [| m ms']; [done |].
  injection Hl as ->. done.
Qed.

Lemma index_rows_keys (vocab : gmap string nat) (rows : list rating)
    (d : list (string * list nat)) (u : string) :
  index_rows vocab rows [] = Ok d →
  u ∈ (d.*1) ↔ u ∈ user_id <$> rows.
Proof.
  intros Hd. destruct (index_rows_lookup _ _ _ _ u Hd) as (ms & Hms & Hl).
  assert (Hf : filter (λ r, user_id r = u) rows = [] ↔ u ∉ user_id <$> rows).
  { rewrite list_elem_of_fmap. split.
    - intros Hnil (r & -> & Hr).
      assert (r ∈ filter (λ r', user_id r' = user_id r) rows) as Hin
        by by apply list_elem_of_filter.
      rewrite Hnil in Hin. by apply elem_of_nil in Hin.
    - intros Hnin. destruct (filter _ rows) as [| r rs] eqn:Hfr; [done |].
      exfalso. apply Hnin. exists r.
      assert (r ∈ filter (λ r', user_id r' = u) rows) as [? ?]%list_elem_of_filter
        by (rewrite Hfr; by left).
      done. }
  destruct ms as [| m ms].
  - apply Forall2_nil_inv_r in Hms. cbn [dd_lookup] in Hl.
    apply dd_lookup_None in Hl. apply Hf in Hms. tauto.
  - destruct (filter _ rows) as [| r rs] eqn:Hfr; [by inversion Hms |].
    assert (Hin : u ∈ user_id <$> rows).
    { destruct (decide (u ∈ user_id <$> rows)) as [? | Hn]; [done |].
      by apply Hf in Hn. }
    split; [done |]. intros _.
    destruct (decide (u ∈ (d.*1))) as [? | Hn]; [done |].
    apply dd_lookup_None in Hn. congruence.
Qed.

(** Either every row's movie is in the vocabulary and indexing succeeds, or
    indexing raises [KeyError] for a movie that is not. *)
Lemma index_rows_result (vocab : gmap string nat) (rows : list rating)
    (d : list (string * list nat)) :
  (Forall (λ r, is_Some (vocab !! movie_id r)) rows ∧
     ∃ d', index_rows vocab rows d = Ok d') ∨
  (∃ r, r ∈ rows ∧ vocab !! movie_id r = None ∧
        index_rows vocab rows d = Raise (KeyError (movie_id r))).
Proof.
  revert d. induction rows as [| row rows IH]; intros d; cbn [index_rows].
  - left. split; [constructor | by eexists].
  - unfold vocabulary_getitem.
    destruct (vocab !! movie_id row) as [m |] eqn:Hm.
    + destruct (IH (dd_modify [] (λ a, a ++ [m]) (user_id row) d))
        as [[Hall [d' Hd']] | (r & Hr & Hnone & Hraise)].
      * left. split; [constructor; [by eexists | done] | by exists d'].
      * right. exists r. split_and!; [by right | done | done].
    + right. exists row. split_and!; [by left | done | done].
Qed.

(** ** Hits and the metric loop *)

Lemma count_in_hits (top xs : list nat) : count_in top xs = hits top xs.
Proof.
  unfold count_in, hits.
  assert (Hgen : ∀ acc,
    foldl (λ acc x, acc + (if decide (x ∈ top) then 1 else 0)) acc xs
    = acc + length (filter (λ x, x ∈ top) xs)).
  { induction xs as [| x xs IH]; intros acc; cbn [foldl].
    - simpl. lia.
    - rewrite IH, filter_cons. destruct (decide (x ∈ top)); simpl; lia. }
  by rewrite Hgen.
Qed.

Lemma hits_le_length (top xs : list nat) : hits top xs ≤ length xs.
Proof. unfold hits. apply length_filter. Qed.

Lemma hits_le_top (top xs : list nat) : NoDup xs → hits top xs ≤ length top.
Proof.
  intros Hnd. unfold hits. apply submseteq_length, NoDup_submseteq.
  - by apply NoDup_filter.
  - by intros x [? _]%list_elem_of_filter.
Qed.

Lemma np_mean_nonempty (l : list Q) :
  l ≠ [] → np_mean l = Finite (arithmetic_mean l).
Proof. by destruct l. Qed.

Lemma user_metrics_spec (top_movies test_movies : list nat) (k : Z) :
  k ≠ 0%Z → test_movies ≠ [] →
  user_metrics top_movies test_movies k
  = Ok (spec_precision top_movies test_movies k, spec_recall top_movies test_movies).
Proof.
  intros Hk Hne. unfold user_metrics, py_truediv. rewrite count_in_hits.
  destruct (decide (k = 0%Z)) as [| _]; [done |]. cbn [mbind result_bind].
  destruct (decide (Z.of_nat (length test_movies) = 0%Z)) as [Hz | _]; [| done].
  destruct test_movies; [done | simpl in Hz; lia].
Qed.

Section metric_loop.
Context (A : Argsort) (user_model : string → list Q)
  (movie_embeddings : list (list Q)) (train : option (list rating))
  (train_user_to_movies : list (string * list nat)) (k : Z).

Local Abbreviation top :=
  (selected A user_model movie_embeddings train train_user_to_movies k).

Lemma metric_loop_spec (items : list (string * list nat)) (ps rs : list Q) :
  k ≠ 0%Z → Forall (λ it, it.2 ≠ []) items →
  metric_loop A user_model movie_embeddings train train_user_to_movies k items ps rs
  = Ok (ps ++ ((λ it, spec_precision (top it.1) it.2 k) <$> items),
        rs ++ ((λ it, spec_recall (top it.1) it.2) <$> items)).
Proof.
  intros Hk Hall. revert ps rs.
  induction Hall as [| [u tm] items Hne Hall IH]; intros ps rs; cbn [metric_loop].
  - by rewrite !app_nil_r.
  - rewrite user_metrics_spec by done. cbn [mbind result_bind].
    rewrite IH, !fmap_cons, <- !app_assoc. done.
Qed.

End metric_loop.

Lemma index_rows_nonempty (vocab : gmap string nat) (rows : list rating)
    (d : list (string * list nat)) :
  index_rows vocab rows [] = Ok d → Forall (λ it, it.2 ≠ []) d.
Proof.
  intros Hd. apply Forall_forall. intros [u ms] Hin.
  by destruct (index_rows_entry _ _ _ _ _ Hd Hin).
Qed.

(** [evaluate] once the catalog is known to be non-empty and both indices
    are built: the metric loop and the two means. *)
Lemma evaluate_indexed (A : Argsort) (user_model movie_model : string → list Q)
    (test : list rating) (movies : list string) (train : option (list rating))
    (k : Z) (tr te : list (string * list nat)) :
  movies ≠ [] →
  train_index (movie_vocabulary movies) train = Ok tr →
  index_rows (movie_vocabulary movies) test [] = Ok te →
  evaluate A user_model movie_model test movies train k
  = '(ps, rs) ← metric_loop A user_model (movie_model <$> movies) train tr k te [] [];
    Ok {| precision_at_k := np_mean ps; recall_at_k := np_mean rs |}.
Proof.
  intros Hne Htr Hte. unfold evaluate, train_index in *.
  destruct movies as [| m0 movies']; [done |].
  cbn [np_concatenate mbind result_bind]. rewrite Htr, Hte.
  cbn [mbind result_bind]. by rewrite fmap_cons.
Qed.

(** The only failures of [evaluate] before the metric loop: the empty
    catalog, and a movie missing from the vocabulary. *)
Lemma evaluate_KeyError_train (A : Argsort) (user_model movie_model : string → list Q)
    (test : list rating) (movies : list string) (train : option (list rating))
    (k : Z) (e : py_error) :
  movies ≠ [] →
  train_index (movie_vocabulary movies) train = Raise e →
  evaluate A user_model movie_model test movies train k = Raise e.
Proof.
  intros Hne Htr. unfold evaluate, train_index in *.
  destruct movies as [| m0 movies']; [done |].
  cbn [np_concatenate mbind result_bind]. by rewrite Htr.
Qed.

Lemma evaluate_KeyError_test (A : Argsort) (user_model movie_model : string → list Q)
    (test : list rating) (movies : list string) (train : option (list rating))
    (k : Z) (tr : list (string * list nat)) (e : py_error) :
  movies ≠ [] →
  train_index (movie_vocabulary movies) train = Ok tr →
  index_rows (movie_vocabulary movies) test [] = Raise e →
  evaluate A user_model movie_model test movies train k = Raise e.
Proof.
  intros Hne Htr Hte. unfold evaluate, train_index in *.
  destruct movies as [| m0 movies']; [done |].
  cbn [np_concatenate mbind result_bind]. by rewrite Htr, Hte.
Qed.

Lemma train_index_result (vocab : gmap string nat) (train : option (list rating)) :
  (∃ tr, train_index vocab train = Ok tr ∧
         ∀ rows, train = Some rows → Forall (λ r, is_Some (vocab !! movie_id r)) rows) ∨
  (∃ rows r, train = Some rows ∧ r ∈ rows ∧ vocab !! movie_id r = None ∧
             train_index vocab train = Raise (KeyError (movie_id r))).
Proof.
  destruct train as [rows |]; cbn [train_index]; [| left; by eexists].
  destruct (index_rows_result vocab rows []) as [[Hall [d' Hd']] | (r & Hr & Hnone & Hraise)].
  - left. exists d'. split; [done |]. by intros ? [= <-].
  - right. by exists rows, r.
Qed.

(** C10. Every entry of the test index that the metric loop iterates over
    holds at least one movie, so the recall division by the number of test
    movies is defined for it; [evaluate] raises [ZeroDivisionError] only
    through the division by [k], when [k] is 0. *)
Theorem recall_division_defined (A : Argsort)
    (user_model movie_model : string → list Q)
    (test : list rating) (movies : list string)
    (train : option (list rating)) (k : Z) :
  (∀ test_user_to_movies,
     index_rows (movie_vocabulary movies) test [] = Ok test_user_to_movies →
     ∀ user test_movies, (user, test_movies) ∈ test_user_to_movies →
       0 < length test_movies ∧
       ∀ n, py_truediv n (Z.of_nat (length test_movies))
            = Ok (inject_Z n / inject_Z (Z.of_nat (length test_movies)))%Q) ∧
  (evaluate A user_model movie_model test movies train k = Raise ZeroDivisionError →
   k = 0%Z).
Proof.
  split.
  - intros d Hd u tm Hin. destruct (index_rows_entry _ _ _ _ _ Hd Hin) as [Hne _].
    assert (0 < length tm) by (destruct tm; [done | simpl; lia]).
    split; [done |]. intros n. unfold py_truediv. rewrite decide_False; [done | lia].
  - destruct (decide (movies = [])) as [-> | Hne]; [done |].
    destruct (train_index_result (movie_vocabulary movies) train)
      as [(tr & Htr & _) | (rows & r & _ & _ & _ & Hraise)].
    2: { by rewrite (evaluate_KeyError_train _ _ _ _ _ _ _ _ Hne Hraise). }
    destruct (index_rows_result (movie_vocabulary movies) test [])
      as [[_ [te Hte]] | (r & _ & _ & Hraise)].
    2: { by rewrite (evaluate_KeyError_test _ _ _ _ _ _ _ _ _ Hne Htr Hraise). }
    rewrite (evaluate_indexed _ _ _ _ _ _ _ _ _ Hne Htr Hte).
    destruct (decide (k = 0%Z)) as [| Hk]; [done |].
    rewrite metric_loop_spec; [done | done | by eapply index_rows_nonempty].
Qed.

Lemma recall_division_defined_witness :
  0 < length [2] ∧
  ∀ n, py_truediv n (Z.of_nat (length [2])) = Ok (inject_Z n / inject_Z (Z.of_nat (length [2])))%Q.
Proof.
  apply (proj1 (recall_division_defined stable_argsort example_user_model
                  example_movie_model [watch "u" "m3"; watch "v" "m1"]
                  ["m1"; "m2"; "m3"]%string None 2)
           [("u"%string, [2]); ("v"%string, [0])] eq_refl "u"%string [2]).
  by left.
Defined.

(** ** Vocabulary misses *)

Lemma not_in_vocabulary (movies : list string) (m : string) :
  movie_vocabulary movies !! m = None ↔ m ∉ movies.
Proof.
  rewrite <- movie_vocabulary_is_Some, eq_None_not_Some. done.
Qed.

(** C8, as the code has it. With a non-empty catalog, a train or test
    interaction whose movie is absent from the catalog makes [evaluate] raise
    [KeyError] for an absent movie, whatever the models, the tie-break and
    [k] are (no score is computed before the failure). *)
Theorem evaluate_vocabulary_miss (A : Argsort)
    (user_model movie_model : string → list Q)
    (test : list rating) (movies : list string)
    (train : option (list rating)) (k : Z) :
  movies ≠ [] →
  (∃ r, (r ∈ test ∨ ∃ rows, train = Some rows ∧ r ∈ rows) ∧ movie_id r ∉ movies) →
  ∃ m, (m ∉ movies) ∧
       evaluate A user_model movie_model test movies train k = Raise (KeyError m).
Proof.
  intros Hne (r & Hr & Hmiss).
  destruct (train_index_result (movie_vocabulary movies) train)
    as [(tr & Htr & Hall) | (rows & r' & _ & _ & Hnone & Hraise)].
  2: { exists (movie_id r'). split; [by apply not_in_vocabulary |].
       by apply evaluate_KeyError_train. }
  destruct (index_rows_result (movie_vocabulary movies) test [])
    as [[Htest _] | (r' & _ & Hnone & Hraise)].
  - exfalso. apply not_in_vocabulary in Hmiss.
    destruct Hr as [Hr | (rows & -> & Hr)].
    + rewrite Forall_forall in Htest. destruct (Htest r Hr). congruence.
    + specialize (Hall rows eq_refl). rewrite Forall_forall in Hall.
      destruct (Hall r Hr). congruence.
  - exists (movie_id r'). split; [by apply not_in_vocabulary |].
    by eapply evaluate_KeyError_test.
Qed.

Lemma evaluate_vocabulary_miss_witness :
  ∃ m, (m ∉ ["m1"; "m2"]%string) ∧
       evaluate stable_argsort example_user_model example_movie_model
         [watch "u" "m9"] ["m1"; "m2"]%string None 10
       = Raise (KeyError m).
Proof.
  apply (evaluate_vocabulary_miss stable_argsort example_user_model
           example_movie_model [watch "u" "m9"] ["m1"; "m2"]%string None 10).
  - done.
  - exists (watch "u" "m9"). split; [left; by left |].
    apply (bool_decide_unpack _). vm_compute. exact I.
Defined.

(** With an empty catalog the vocabulary is never built: [np.concatenate]
    has nothing to concatenate and raises [ValueError] before any
    interaction is looked up. *)
Lemma evaluate_empty_catalog_ValueError :
  movie_vocabulary [] !! movie_id (watch "u" "m1") = None ∧
  evaluate stable_argsort example_user_model example_movie_model
    [watch "u" "m1"] [] (Some [watch "u" "m1"]) 10
  = Raise ValueError.
Proof. split; reflexivity. Qed.

(** ** Hits, precision and recall *)

(** C7. When [evaluate] returns (non-empty catalog, every interaction in the
    catalog, [k] not 0) on a non-empty test dataset: the test index has one
    entry per user of the test dataset, holding the indices of that user's
    test movies; and the two returned values are the arithmetic means, over
    the entries of the test index, of [hits / k] and of
    [hits / (number of test items)], [hits] being the number of the user's
    test items among the K selected indices. *)
Theorem evaluate_mean_precision_recall (A : Argsort)
    (user_model movie_model : string → list Q)
    (test : list rating) (movies : list string)
    (train : option (list rating)) (k : Z) :
  movies ≠ [] → k ≠ 0%Z → test ≠ [] →
  Forall (λ r, movie_id r ∈ movies) test →
  (∀ rows, train = Some rows → Forall (λ r, movie_id r ∈ movies) rows) →
  ∃ tr te,
    train_index (movie_vocabulary movies) train = Ok tr ∧
    index_rows (movie_vocabulary movies) test [] = Ok te ∧
    NoDup (te.*1) ∧
    (∀ u, u ∈ (te.*1) ↔ u ∈ user_id <$> test) ∧
    (∀ u tm, (u, tm) ∈ te →
       Forall2 (λ r i, movie_vocabulary movies !! movie_id r = Some i)
               (filter (λ r, user_id r = u) test) tm) ∧
    let top := selected A user_model (movie_model <$> movies) train tr k in
    evaluate A user_model movie_model test movies train k
    = Ok {| precision_at_k :=
              Finite (arithmetic_mean ((λ it, spec_precision (top it.1) it.2 k) <$> te));
            recall_at_k :=
              Finite (arithmetic_mean ((λ it, spec_recall (top it.1) it.2) <$> te)) |}.
Proof.
  intros Hne Hk Htest Hin_test Hin_train.
  destruct (train_index_result (movie_vocabulary movies) train)
    as [(tr & Htr & _) | (rows & r & -> & Hr & Hnone & _)].
  2: { exfalso. apply not_in_vocabulary in Hnone. apply Hnone.
       specialize (Hin_train rows eq_refl). rewrite Forall_forall in Hin_train. auto. }
  destruct (index_rows_result (movie_vocabulary movies) test [])
    as [[_ [te Hte]] | (r & Hr & Hnone & _)].
  2: { exfalso. apply not_in_vocabulary in Hnone. apply Hnone.
       rewrite Forall_forall in Hin_test. auto. }
  exists tr, te. split_and!; [done | done | | | |].
  - by eapply index_rows_keys_NoDup.
  - intros u. by eapply index_rows_keys.
  - intros u tm Hin. by destruct (index_rows_entry _ _ _ _ _ Hte Hin).
  - intros top. rewrite (evaluate_indexed _ _ _ _ _ _ _ _ _ Hne Htr Hte).
    rewrite metric_loop_spec; [| done | by eapply index_rows_nonempty].
    cbn [mbind result_bind app].
    assert (Hte_ne : te ≠ []).
    { intros ->. destruct test as [| r test]; [done |].
      pose proof (proj2 (index_rows_keys _ _ _ (user_id r) Hte)) as Hk'.
      rewrite fmap_cons in Hk'. specialize (Hk' ltac:(by left)).
      by apply elem_of_nil in Hk'. }
    rewrite !np_mean_nonempty; [done | |]; by destruct te.
Qed.

Lemma evaluate_mean_precision_recall_witness :
  let movies := ["m1"; "m2"; "m3"]%string in
  let test := [watch "u" "m3"; watch "v" "m1"] in
  let train := Some [watch "u" "m1"] in
  ∃ tr te,
    train_index (movie_vocabulary movies) train = Ok tr ∧
    index_rows (movie_vocabulary movies) test [] = Ok te ∧
    let top := selected stable_argsort example_user_model
                 (example_movie_model <$> movies) train tr 2 in
    evaluate stable_argsort example_user_model example_movie_model test movies train 2
    = Ok {| precision_at_k :=
              Finite (arithmetic_mean ((λ it, spec_precision (top it.1) it.2 2) <$> te));
            recall_at_k :=
              Finite (arithmetic_mean ((λ it, spec_recall (top it.1) it.2) <$> te)) |}.
Proof.
  intros movies test train.
  destruct (evaluate_mean_precision_recall stable_argsort example_user_model
              example_movie_model test movies train 2)
    as (tr & te & Htr & Hte & _ & _ & _ & Hev).
  - done.
  - done.
  - done.
  - apply (bool_decide_unpack _). vm_compute. exact I.
  - intros rows [= <-]. apply (bool_decide_unpack _). vm_compute. exact I.
  - by exists tr, te.
Defined.

(** ** Bounds on the metrics *)

Lemma inject_Z_pos (b : Z) : (0 < b)%Z → (0 < inject_Z b)%Q.
Proof. intros Hb. unfold Qlt. simpl. lia. Qed.

Lemma inject_Z_le (a b : Z) : (a ≤ b)%Z → (inject_Z a <= inject_Z b)%Q.
Proof. intros Hab. unfold Qle. simpl. lia. Qed.

Lemma Qdiv_nonneg (a b : Z) :
  (0 ≤ a)%Z → (0 < b)%Z → (0 <= inject_Z a / inject_Z b)%Q.
Proof.
  intros Ha Hb. apply Qle_shift_div_l.
  - by apply inject_Z_pos.
  - rewrite Qmult_0_l. by apply (inject_Z_le 0 a).
Qed.

Lemma Qdiv_le_1 (a b : Z) :
  (a ≤ b)%Z → (0 < b)%Z → (inject_Z a / inject_Z b <= 1)%Q.
Proof.
  intros Hab Hb. apply Qle_shift_div_r.
  - by apply inject_Z_pos.
  - rewrite Qmult_1_l. by apply inject_Z_le.
Qed.

Lemma Qsum_nonneg (l : list Q) :
  Forall (λ q, (0 <= q)%Q) l → (0 <= Qsum l)%Q.
Proof.
  induction 1 as [| q l Hq _ IH]; cbn [Qsum foldr].
  - apply Qle_refl.
  - change 0%Q with (0 + 0)%Q. by apply Qplus_le_compat.
Qed.

Lemma Qsum_le_length (l : list Q) :
  Forall (λ q, (q <= 1)%Q) l → (Qsum l <= inject_Z (Z.of_nat (length l)))%Q.
Proof.
  induction 1 as [| q l Hq _ IH]; cbn [Qsum foldr length].
  - apply Qle_refl.
  - rewrite Nat2Z.inj_succ, <- Z.add_1_l, inject_Z_plus.
    by apply Qplus_le_compat.
Qed.

Lemma arithmetic_mean_nonneg (l : list Q) :
  l ≠ [] → Forall (λ q, (0 <= q)%Q) l → (0 <= arithmetic_mean l)%Q.
Proof.
  intros Hne Hall. unfold arithmetic_mean. apply Qle_shift_div_l.
  - apply inject_Z_pos. destruct l; [done | simpl; lia].
  - rewrite Qmult_0_l. by apply Qsum_nonneg.
Qed.

Lemma arithmetic_mean_le_1 (l : list Q) :
  l ≠ [] → Forall (λ q, (q <= 1)%Q) l → (arithmetic_mean l <= 1)%Q.
Proof.
  intros Hne Hall. unfold arithmetic_mean. apply Qle_shift_div_r.
  - apply inject_Z_pos. destruct l; [done | simpl; lia].
  - rewrite Qmult_1_l. by apply Qsum_le_length.
Qed.

Lemma py_slice_to_length {A} (k : Z) (l : list A) :
  (0 ≤ k)%Z → length (py_slice_to k l) ≤ Z.to_nat k.
Proof.
  intros Hk. unfold py_slice_to. rewrite decide_True by done.
  rewrite length_take. lia.
Qed.

Lemma spec_recall_bounds (top tm : list nat) :
  tm ≠ [] → (0 <= spec_recall top tm)%Q ∧ (spec_recall top tm <= 1)%Q.
Proof.
  intros Hne. unfold spec_recall.
  assert (0 < length tm) by (destruct tm; [done | simpl; lia]).
  pose proof (hits_le_length top tm).
  split; [apply Qdiv_nonneg | apply Qdiv_le_1]; lia.
Qed.

Lemma spec_precision_nonneg (top tm : list nat) (k : Z) :
  (0 < k)%Z → (0 <= spec_precision top tm k)%Q.
Proof. intros Hk. unfold spec_precision. apply Qdiv_nonneg; lia. Qed.

Lemma spec_precision_le_1 (top tm : list nat) (k : Z) :
  (0 < k)%Z → length top ≤ Z.to_nat k → NoDup tm →
  (spec_precision top tm k <= 1)%Q.
Proof.
  intros Hk Hlen Hnd. unfold spec_precision.
  pose proof (hits_le_top top tm Hnd). apply Qdiv_le_1; lia.
Qed.

Lemma selected_length (A : Argsort) (user_model : string → list Q)
    (movie_embeddings : list (list Q)) (train : option (list rating))
    (tr : list (string * list nat)) (k : Z) (u : string) :
  (0 ≤ k)%Z →
  length (selected A user_model movie_embeddings train tr k u) ≤ Z.to_nat k.
Proof. intros Hk. unfold selected, top_k. by apply py_slice_to_length. Qed.

(** Distinct movies of one user get distinct indices. *)
Lemma indices_NoDup (vocab_movies : list string) (rows : list rating) (ms : list nat) :
  Forall2 (λ r i, movie_vocabulary vocab_movies !! movie_id r = Some i) rows ms →
  NoDup (movie_id <$> rows) → NoDup ms.
Proof.
  induction 1 as [| r i rows ms Hr Hrows IH]; [constructor |].
  rewrite fmap_cons. intros [Hnin Hnd]%NoDup_cons.
  apply NoDup_cons. split; [| by apply IH].
  intros [j Hj]%list_elem_of_lookup_1.
  destruct (Forall2_lookup_r _ _ _ _ _ Hrows Hj) as (r' & Hr' & Hi').
  apply Hnin. rewrite (movie_vocabulary_inj _ _ _ _ Hr Hi').
  apply list_elem_of_fmap. exists r'. split; [done |]. by eapply list_elem_of_lookup_2.
Qed.

Lemma user_movies_NoDup (rows : list rating) (u : string) :
  NoDup ((λ r, (user_id r, movie_id r)) <$> rows) →
  NoDup (movie_id <$> filter (λ r, user_id r = u) rows).
Proof.
  induction rows as [| r rows IH]; [constructor |].
  rewrite fmap_cons. intros [Hnin Hnd]%NoDup_cons. rewrite filter_cons.
  destruct (decide (user_id r = u)) as [Hu | Hu]; [| by apply IH].
  rewrite fmap_cons. apply NoDup_cons. split; [| by apply IH].
  intros (r' & Hm & [Hu' Hr']%list_elem_of_filter)%list_elem_of_fmap.
  apply Hnin. apply list_elem_of_fmap. exists r'. split; [| done]. congruence.
Qed.

(** What a successful call of [evaluate] went through. *)
Lemma evaluate_Ok_inv (A : Argsort) (user_model movie_model : string → list Q)
    (test : list rating) (movies : list string) (train : option (list rating))
    (k : Z) (m : metrics) :
  k ≠ 0%Z →
  evaluate A user_model movie_model test movies train k = Ok m →
  ∃ tr te,
    train_index (movie_vocabulary movies) train = Ok tr ∧
    index_rows (movie_vocabulary movies) test [] = Ok te ∧
    let top := selected A user_model (movie_model <$> movies) train tr k in
    m = {| precision_at_k := np_mean ((λ it, spec_precision (top it.1) it.2 k) <$> te);
           recall_at_k := np_mean ((λ it, spec_recall (top it.1) it.2) <$> te) |}.
Proof.
  intros Hk Hev. destruct (decide (movies = [])) as [-> | Hne]; [done |].
  destruct (train_index_result (movie_vocabulary movies) train)
    as [(tr & Htr & _) | (rows & r & _ & _ & _ & Hraise)].
  2: { by rewrite (evaluate_KeyError_train _ _ _ _ _ _ _ _ Hne Hraise) in Hev. }
  destruct (index_rows_result (movie_vocabulary movies) test [])
    as [[_ [te Hte]] | (r & _ & _ & Hraise)].
  2: { by rewrite (evaluate_KeyError_test _ _ _ _ _ _ _ _ _ Hne Htr Hraise) in Hev. }
  exists tr, te. split_and!; [done | done |]. intros top.
  rewrite (evaluate_indexed _ _ _ _ _ _ _ _ _ Hne Htr Hte) in Hev.
  rewrite metric_loop_spec in Hev; [| done | by eapply index_rows_nonempty].
  cbn [mbind result_bind app] in Hev. by injection Hev as <-.
Qed.

(** C2, as the code has it. For a call of [evaluate] with [k > 0] that
    returns: every user of the test index has a recall in [0,1] and a
    precision that is at least 0, and at most 1 when the user's test movies
    are distinct; on a non-empty test dataset the returned [recall_at_k] is a
    finite value in [0,1] and the returned [precision_at_k] is finite and at
    least 0, and at most 1 when no (user, movie) pair occurs twice in the
    test dataset; on an empty test dataset both returned values are [nan]. *)
Theorem evaluate_metric_bounds (A : Argsort)
    (user_model movie_model : string → list Q)
    (test : list rating) (movies : list string)
    (train : option (list rating)) (k : Z) (m : metrics) :
  (0 < k)%Z →
  evaluate A user_model movie_model test movies train k = Ok m →
  (∀ tr te u tm,
     train_index (movie_vocabulary movies) train = Ok tr →
     index_rows (movie_vocabulary movies) test [] = Ok te →
     (u, tm) ∈ te →
     let top := selected A user_model (movie_model <$> movies) train tr k u in
     user_metrics top tm k = Ok (spec_precision top tm k, spec_recall top tm) ∧
     (0 <= spec_recall top tm)%Q ∧ (spec_recall top tm <= 1)%Q ∧
     (0 <= spec_precision top tm k)%Q ∧
     (NoDup tm → (spec_precision top tm k <= 1)%Q)) ∧
  (test = [] → m = {| precision_at_k := NaN; recall_at_k := NaN |}) ∧
  (test ≠ [] →
   ∃ p r, m = {| precision_at_k := Finite p; recall_at_k := Finite r |} ∧
     (0 <= r)%Q ∧ (r <= 1)%Q ∧ (0 <= p)%Q ∧
     (NoDup ((λ r, (user_id r, movie_id r)) <$> test) → (p <= 1)%Q)).
Proof.
  intros Hk Hev. assert (Hk0 : k ≠ 0%Z) by lia.
  assert (Huser : ∀ te u tm,
    index_rows (movie_vocabulary movies) test [] = Ok te → (u, tm) ∈ te →
    tm ≠ [] ∧
    (NoDup ((λ r, (user_id r, movie_id r)) <$> test) → NoDup tm)).
  { intros te u tm Hte Hin.
    destruct (index_rows_entry _ _ _ _ _ Hte Hin) as [Hne Hf]. split; [done |].
    intros Hnd. eapply indices_NoDup; [exact Hf |]. by apply user_movies_NoDup. }
  split_and!.
  - intros tr te u tm Htr Hte Hin top.
    destruct (Huser te u tm Hte Hin) as [Hne _].
    destruct (spec_recall_bounds top tm Hne) as [Hr0 Hr1].
    split_and!; [apply user_metrics_spec; [lia | done] | done | done | |].
    + by apply spec_precision_nonneg.
    + intros Hnd. apply spec_precision_le_1; [done | | done].
      apply selected_length. lia.
  - intros ->. destruct (evaluate_Ok_inv _ _ _ _ _ _ _ _ Hk0 Hev)
      as (tr & te & _ & Hte & Hm).
    cbn [index_rows] in Hte. injection Hte as <-. done.
  - intros Htest. destruct (evaluate_Ok_inv _ _ _ _ _ _ _ _ Hk0 Hev)
      as (tr & te & Htr & Hte & Hm).
    assert (Hte_ne : te ≠ []).
    { intros ->. destruct test as [| r test]; [done |].
      pose proof (proj2 (index_rows_keys _ _ _ (user_id r) Hte)) as Hk'.
      rewrite fmap_cons in Hk'. specialize (Hk' ltac:(by left)).
      by apply elem_of_nil in Hk'. }
    cbv zeta in Hm. rewrite !np_mean_nonempty in Hm by by destruct te.
    eexists _, _. split; [exact Hm |].
    split_and!.
    + apply arithmetic_mean_nonneg; [by destruct te |].
      apply Forall_fmap, Forall_forall. intros [u tm] Hin.
      destruct (Huser te u tm Hte Hin) as [Hne _].
      by destruct (spec_recall_bounds
        (selected A user_model (movie_model <$> movies) train tr k u) tm Hne).
    + apply arithmetic_mean_le_1; [by destruct te |].
      apply Forall_fmap, Forall_forall. intros [u tm] Hin.
      destruct (Huser te u tm Hte Hin) as [Hne _].
      by destruct (spec_recall_bounds
        (selected A user_model (movie_model <$> movies) train tr k u) tm Hne).
    + apply arithmetic_mean_nonneg; [by destruct te |].
      apply Forall_fmap, Forall_forall. intros [u tm] Hin.
      by apply spec_precision_nonneg.
    + intros Hnd. apply arithmetic_mean_le_1; [by destruct te |].
      apply Forall_fmap, Forall_forall. intros [u tm] Hin.
      destruct (Huser te u tm Hte Hin) as [_ Hnd'].
      apply spec_precision_le_1; [done | apply selected_length; lia | by apply Hnd'].
Qed.

Lemma evaluate_metric_bounds_witness :
  ∃ p r, {| precision_at_k := Finite (4 # 8); recall_at_k := Finite (2 # 2) |}
         = {| precision_at_k := Finite p; recall_at_k := Finite r |} ∧
    (0 <= r)%Q ∧ (r <= 1)%Q ∧ (0 <= p)%Q ∧
    (NoDup ((λ r, (user_id r, movie_id r)) <$> [watch "u" "m3"; watch "v" "m1"]) →
     (p <= 1)%Q).
Proof.
  refine (proj2 (proj2 (evaluate_metric_bounds stable_argsort example_user_model
            example_movie_model [watch "u" "m3"; watch "v" "m1"]
            ["m1"; "m2"; "m3"]%string (Some [watch "u" "m1"]) 2
            {| precision_at_k := Finite (4 # 8); recall_at_k := Finite (2 # 2) |}
            _ _)) _).
  - lia.
  - vm_compute. reflexivity.
  - done.
Defined.

(** The three ways out of [0,1]: no user at all (the mean of nothing is
    [nan]), a test movie counted twice (2 hits among K = 1), and a negative
    cutoff. *)
Lemma evaluate_metrics_outside_unit_interval :
  evaluate stable_argsort example_user_model example_movie_model
    [] ["m1"; "m2"]%string None 10
  = Ok {| precision_at_k := NaN; recall_at_k := NaN |} ∧
  evaluate stable_argsort example_user_model example_movie_model
    [watch "u" "m1"; watch "u" "m1"] ["m1"; "m2"]%string None 1
  = Ok {| precision_at_k := Finite 2; recall_at_k := Finite (2 # 2) |} ∧
  ¬ (2 <= 1)%Q ∧
  evaluate stable_argsort example_user_model example_movie_model
    [watch "u" "m1"] ["m1"; "m2"]%string None (-1)
  = Ok {| precision_at_k := Finite (-1); recall_at_k := Finite 1 |} ∧
  ¬ (0 <= -1)%Q.
Proof.
  split_and!; [vm_compute; reflexivity | vm_compute; reflexivity | |
               vm_compute; reflexivity |].
  - intros H. vm_compute in H. by apply H.
  - intros H. vm_compute in H. by apply H.
Qed.

(** The hits of a user are bounded by [k] and by the number of the user's
    test movies, when these are distinct and [k] is not negative. *)
Theorem hits_le_min (A : Argsort) (scores : list Q) (k : Z) (test_movies : list nat) :
  (0 ≤ k)%Z → NoDup test_movies →
  hits (top_k A scores k) test_movies ≤ Z.to_nat k `min` length test_movies.
Proof.
  intros Hk Hnd. apply Nat.min_glb; [| apply hits_le_length].
  etrans; [by apply hits_le_top |]. unfold top_k. by apply py_slice_to_length.
Qed.

Lemma hits_le_min_witness :
  hits (top_k stable_argsort [3%Q; 2%Q; 1%Q] 2) [0; 2] ≤ Z.to_nat 2 `min` length [0; 2].
Proof.
  apply (hits_le_min stable_argsort [3%Q; 2%Q; 1%Q] 2 [0; 2]).
  - lia.
  - apply (bool_decide_unpack _). vm_compute. exact I.
Defined.

(** ** Masking of the train movies *)

Lemma mask_scores_length (scores : list Q) (train_movies : list nat) :
  length (mask_scores scores train_movies) = length scores.
Proof.
  unfold mask_scores. revert scores.
  induction train_movies as [| x t IH]; intros scores; cbn [foldl]; [done |].
  by rewrite IH, length_insert.
Qed.

Lemma mask_scores_lookup_ne (scores : list Q) (train_movies : list nat) (j : nat) :
  j ∉ train_movies → mask_scores scores train_movies !! j = scores !! j.
Proof.
  unfold mask_scores. revert scores.
  induction train_movies as [| x t IH]; intros scores Hj; cbn [foldl]; [done |].
  apply not_elem_of_cons in Hj as [Hne Hj].
  rewrite IH by done. by apply list_lookup_insert_ne.
Qed.

Lemma mask_scores_lookup (scores : list Q) (train_movies : list nat) (i : nat) :
  i ∈ train_movies → i < length scores →
  mask_scores scores train_movies !! i = Some masked_score.
Proof.
  unfold mask_scores. revert scores.
  induction train_movies as [| x t IH]; intros scores Hi Hlen; cbn [foldl].
  - by apply elem_of_nil in Hi.
  - destruct (decide (i ∈ t)) as [Hin | Hnin].
    + apply IH; [done | by rewrite length_insert].
    + apply elem_of_cons in Hi as [-> | ?]; [| done].
      pose proof (mask_scores_lookup_ne (<[x := masked_score]> scores) t x Hnin) as Hl.
      unfold mask_scores in Hl. rewrite Hl. by apply list_lookup_insert_eq.
Qed.

(** When [k] is at least the number of movies, every movie is selected. *)
Lemma top_k_everything (A : Argsort) (scores : list Q) (k : Z) (i : nat) :
  (Z.of_nat (length scores) ≤ k)%Z → i < length scores → i ∈ top_k A scores k.
Proof.
  intros Hk Hi. unfold top_k, py_slice_to. rewrite decide_True by lia.
  pose proof (argsort_perm A (Qopp <$> scores)) as Hperm.
  rewrite length_fmap in Hperm.
  rewrite take_ge.
  - rewrite Hperm. apply elem_of_seq. lia.
  - rewrite Hperm, length_seq. lia.
Qed.

(** C1, at an input where it fails: three movies, a user who watched [m1]
    and [m2] in the train dataset, the default [k = 10]. Whatever the
    tie-break of the sort, the K selected indices are all three movies, the
    two masked train movies included. *)
Theorem train_movies_selected_when_k_exceeds_candidates (A : Argsort) :
  let movies := ["m1"; "m2"; "m3"]%string in
  let train := Some [watch "u" "m1"; watch "u" "m2"] in
  ∃ tr,
    train_index (movie_vocabulary movies) train = Ok tr ∧
    dd_get [] "u"%string tr = [0; 1] ∧
    user_scores example_user_model (example_movie_model <$> movies) train tr "u"
    = [masked_score; masked_score; 1%Q] ∧
    0 ∈ selected A example_user_model (example_movie_model <$> movies) train tr 10 "u" ∧
    1 ∈ selected A example_user_model (example_movie_model <$> movies) train tr 10 "u".
Proof.
  intros movies train. eexists. split; [vm_compute; reflexivity |].
  split; [vm_compute; reflexivity |]. split; [vm_compute; reflexivity |].
  unfold selected.
  split; apply top_k_everything; vm_compute; (done || lia).
Qed.

(** The same input run through [evaluate] with the merge sort, the test
    dataset holding a movie the user also watched in train: the masked movie
    is selected and counted as a hit. *)
Example evaluate_counts_masked_train_movie :
  evaluate stable_argsort example_user_model example_movie_model
    [watch "u" "m1"] ["m1"; "m2"; "m3"]%string
    (Some [watch "u" "m1"; watch "u" "m2"]) 10
  = Ok {| precision_at_k := Finite (1 # 10); recall_at_k := Finite 1 |}.
Proof. vm_compute. reflexivity. Qed.

(** The exclusion does hold when there are enough candidates left and every
    candidate scores above the sentinel: with [0 <= k], [k] at most the
    number of movies outside the user's train set, and every such movie
    scoring more than -1e6, no train movie is among the K selected. *)
Theorem masked_train_movies_excluded (A : Argsort) (scores : list Q)
    (train_movies : list nat) (k : Z) (i : nat) :
  (0 ≤ k)%Z →
  (k ≤ Z.of_nat (length (filter (λ j, j ∉ train_movies) (seq 0 (length scores)))))%Z →
  (∀ j q, j ∉ train_movies → scores !! j = Some q → (masked_score < q)%Q) →
  i ∈ train_movies →
  i ∉ top_k A (mask_scores scores train_movies) k.
Proof.
  intros Hk0 Hk Habove Hi Hsel.
  unfold top_k, py_slice_to in Hsel. rewrite decide_True in Hsel by done.
  set (a := Qopp <$> mask_scores scores train_movies) in *.
  pose proof (argsort_perm A a) as Hperm.
  assert (Hlen : length a = length scores)
    by (subst a; by rewrite length_fmap, mask_scores_length).
  rewrite Hlen in Hperm.
  apply list_elem_of_lookup_1 in Hsel as [p Hp].
  apply lookup_take_Some in Hp as [Hp Hpk].
  assert (Hin : i < length scores).
  { apply list_elem_of_lookup_2 in Hp. rewrite Hperm in Hp.
    apply elem_of_seq in Hp. lia. }
  assert (Hai : a !! i = Some (- masked_score)%Q).
  { subst a. by rewrite list_lookup_fmap, mask_scores_lookup. }
  set (U := filter (λ j, j ∉ train_movies) (seq 0 (length scores))) in *.
  assert (Hsub : U ⊆+ take p (A a)).
  { apply NoDup_submseteq; [apply NoDup_filter, NoDup_seq |].
    intros j [Hj Hjn]%list_elem_of_filter. apply elem_of_seq in Hjn.
    destruct (lookup_lt_is_Some_2 scores j ltac:(lia)) as [q Hq].
    assert (Haj : a !! j = Some (- q)%Q).
    { subst a. by rewrite list_lookup_fmap, mask_scores_lookup_ne, Hq. }
    assert (Hjin : j ∈ A a) by (rewrite Hperm; apply elem_of_seq; lia).
    apply list_elem_of_lookup_1 in Hjin as [pj Hpj].
    destruct (decide (pj < p)) as [Hlt | Hge].
    - apply (list_elem_of_lookup_2 _ pj). by rewrite lookup_take_lt.
    - exfalso. pose proof (argsort_sorted A a p pj i j _ _ ltac:(lia) Hp Hpj Hai Haj) as Hle.
      pose proof (Habove j q Hj Hq) as Hlt.
      apply Qopp_le_compat in Hle. rewrite !Qopp_involutive in Hle.
      by apply Qlt_not_le in Hlt. }
  apply submseteq_length in Hsub. rewrite length_take in Hsub. lia.
Qed.

Lemma masked_train_movies_excluded_witness :
  0 ∉ top_k stable_argsort (mask_scores [3%Q; 2%Q; 1%Q] [0]) 2.
Proof.
  apply (masked_train_movies_excluded stable_argsort [3%Q; 2%Q; 1%Q] [0] 2 0).
  - lia.
  - vm_compute. discriminate.
  - intros j q Hj Hq.
    destruct j as [| [| [| j]]]; simpl in Hq; try discriminate;
      injection Hq as <-; reflexivity.
  - by left.
Defined.

(** ** Sampling *)

Lemma py_getitem_Ok {A} (l : list A) (i : nat) (x : A) :
  py_getitem l i = Ok x ↔ l !! i = Some x.
Proof.
  unfold py_getitem. destruct (l !! i); split; intros [= ->]; done.
Qed.

Lemma py_getitems_cons {A} (l : list A) (i : nat) (idx : list nat) :
  py_getitems l (i :: idx)
  = x ← py_getitem l i; xs ← py_getitems l idx; Ok (x :: xs).
Proof. reflexivity. Qed.

Lemma py_getitems_Ok {A} (l : list A) (idx : list nat) (xs : list A) :
  py_getitems l idx = Ok xs ↔ Forall2 (λ i x, l !! i = Some x) idx xs.
Proof.
  revert xs. induction idx as [| i idx IH]; intros xs.
  - split; [intros [= <-]; constructor |].
    intros Hnil. apply Forall2_nil_inv_l in Hnil. by subst.
  - rewrite py_getitems_cons.
    destruct (py_getitem l i) as [x | e] eqn:Hi; cbn [mbind result_bind].
    + apply py_getitem_Ok in Hi.
      destruct (py_getitems l idx) as [ys | e] eqn:Hys; cbn [mbind result_bind].
      * split.
        -- intros [= <-]. constructor; [done | by apply IH].
        -- intros (x' & ys' & Hx' & Hys' & ->)%Forall2_cons_inv_l.
           apply IH in Hys'. congruence.
      * split; [done |].
        intros (x' & ys' & Hx' & Hys' & ->)%Forall2_cons_inv_l. by apply IH in Hys'.
    + split; [done |].
      intros (x' & ys' & Hx' & Hys' & ->)%Forall2_cons_inv_l.
      apply py_getitem_Ok in Hx'. congruence.
Qed.

Lemma py_getitems_in_range {A} (l : list A) (idx : list nat) :
  Forall (λ i, i < length l) idx → ∃ xs, py_getitems l idx = Ok xs.
Proof.
  intros Hall.
  assert (∃ xs, Forall2 (λ i x, l !! i = Some x) idx xs) as [xs Hxs].
  { induction Hall as [| i idx Hi _ [xs IH]]; [exists []; constructor |].
    destruct (lookup_lt_is_Some_2 l i Hi) as [x Hx]. exists (x :: xs). by constructor. }
  exists xs. by apply py_getitems_Ok.
Qed.

(** Elements read at distinct positions of a duplicate-free list are
    distinct. *)
Lemma getitems_NoDup {A} (l : list A) (idx : list nat) (xs : list A) :
  Forall2 (λ i x, l !! i = Some x) idx xs → NoDup l → NoDup idx → NoDup xs.
Proof.
  intros Hf Hl. induction Hf as [| i x idx xs Hi Hf IH]; [constructor |].
  intros [Hnin Hnd]%NoDup_cons. apply NoDup_cons. split; [| by apply IH].
  intros [j Hj]%list_elem_of_lookup_1.
  destruct (Forall2_lookup_r _ _ _ _ _ Hf Hj) as (i' & Hi' & Hx).
  apply Hnin. rewrite (NoDup_lookup _ _ _ _ Hl Hi Hx).
  by eapply list_elem_of_lookup_2.
Qed.

Lemma getitems_elem_of {A} (l : list A) (idx : list nat) (xs : list A) (x : A) :
  Forall2 (λ i x, l !! i = Some x) idx xs → x ∈ xs → x ∈ l.
Proof.
  intros Hf [j Hj]%list_elem_of_lookup_1.
  destruct (Forall2_lookup_r _ _ _ _ _ Hf Hj) as (i & _ & Hx).
  by eapply list_elem_of_lookup_2.
Qed.

Section random_sample.
Context (S : Sampler) {A : Type}.
Implicit Types (g : rng_state S) (population : list A) (k : Z).

(** What a successful [random.sample] returns: [k] elements read at distinct
    positions of the population. *)
Lemma random_sample_Ok g population k xs g' :
  random_sample S g population k = Ok (xs, g') →
  (0 ≤ k ≤ Z.of_nat (length population))%Z ∧
  ∃ idx, NoDup idx ∧ length idx = Z.to_nat k ∧
         Forall2 (λ i x, population !! i = Some x) idx xs.
Proof.
  unfold random_sample. intros Hs.
  destruct (decide (0 ≤ k ≤ Z.of_nat (length population))%Z) as [Hk | Hk].
  - split; [done |].
    destruct (sample_positions_Some S g _ _ Hk) as (idx & g1 & Hsome & Hlen & Hnd & _).
    rewrite Hsome in Hs.
    destruct (py_getitems population idx) as [ys | e] eqn:Hys; [| done].
    cbn [mbind result_bind] in Hs. injection Hs as <- <-.
    exists idx. split_and!; [done | done | by apply py_getitems_Ok].
  - rewrite sample_positions_None in Hs by lia. done.
Qed.

(** [random.sample] fails exactly on a sample size that is negative or
    larger than the population, and then with [ValueError]. *)
Lemma random_sample_Raise g population k e :
  random_sample S g population k = Raise e →
  e = ValueError ∧ (k < 0 ∨ Z.of_nat (length population) < k)%Z.
Proof.
  unfold random_sample. intros Hs.
  destruct (decide (0 ≤ k ≤ Z.of_nat (length population))%Z) as [Hk | Hk].
  - destruct (sample_positions_Some S g _ _ Hk) as (idx & g1 & Hsome & _ & _ & Hlt).
    rewrite Hsome in Hs. destruct (py_getitems_in_range population idx Hlt) as [xs Hxs].
    by rewrite Hxs in Hs.
  - rewrite sample_positions_None in Hs by lia. injection Hs as <-.
    split; [done | lia].
Qed.
End random_sample.

(** Sampling positions of [range(n)] returns the positions themselves. *)
Lemma getitems_seq (n : nat) (idx xs : list nat) :
  Forall2 (λ i x, seq 0 n !! i = Some x) idx xs → xs = idx ∧ Forall (λ i, i < n) idx.
Proof.
  induction 1 as [| i x idx xs Hi _ [-> IH]]; [by split |].
  apply lookup_seq in Hi as [-> Hi]. split; [done | by constructor].
Qed.

(** ** [_sample_list] *)

Lemma set_tuple_length (O : SetOrder) (s : gset string) : length (O s) = size s.
Proof. by rewrite (set_tuple_perm O s). Qed.

Lemma _sample_list_Ok (S : Sampler) (O : SetOrder) (g g' : rng_state S)
    (negatives : gset string) (lists : feature_lists) (num_pos num_neg : Z)
    (ids : list string) (ratings : list Q) :
  _sample_list S O g negatives lists num_pos num_neg = Ok ((ids, ratings), g') →
  is_sample lists negatives num_pos num_neg ids ratings.
Proof.
  unfold _sample_list. intros Hs.
  destruct (random_sample S g (seq 0 (length (fl_movie_id lists))) num_pos)
    as [[sampled_indices g1] | e] eqn:Hpos; [| done].
  cbn [mbind result_bind] in Hs.
  destruct (py_getitems (fl_movie_id lists) sampled_indices) as [pos_ids | e] eqn:Hids;
    [| done].
  cbn [mbind result_bind] in Hs.
  destruct (py_getitems (fl_user_rating lists) sampled_indices) as [pos_ratings | e]
    eqn:Hrs; [| done].
  cbn [mbind result_bind] in Hs.
  destruct (random_sample S g1 (O negatives) num_neg) as [[neg_ids g2] | e] eqn:Hneg;
    [| done].
  cbn [mbind result_bind] in Hs. injection Hs as <- <- <-.
  apply random_sample_Ok in Hpos as (Hnp & idx & Hnd & Hlen & Hidx).
  rewrite length_seq in Hnp. apply getitems_seq in Hidx as [-> _].
  apply random_sample_Ok in Hneg as (Hnn & idx' & Hnd' & Hlen' & Hidx').
  rewrite set_tuple_length in Hnn.
  split_and!; [lia | lia | lia | lia |].
  exists idx, pos_ids, pos_ratings, neg_ids. split_and!.
  - done.
  - done.
  - by apply py_getitems_Ok.
  - by apply py_getitems_Ok.
  - eapply getitems_NoDup; [exact Hidx' | | done].
    rewrite (set_tuple_perm O negatives). apply NoDup_elements.
  - rewrite <- Hlen'. symmetry. by eapply Forall2_length.
  - intros m Hm. apply elem_of_elements. rewrite <- (set_tuple_perm O negatives).
    by eapply getitems_elem_of.
  - done.
  - unfold py_range. f_equal. generalize (Z.to_nat num_neg) as n. intros n.
    generalize 0 as s. induction n as [| n IH]; intros s; cbn [seq]; [done |].
    by rewrite fmap_cons, IH.
Qed.

(** [_sample_list] returns, or raises [ValueError]: on aligned lists the
    positions sampled are positions of both lists. *)
Lemma _sample_list_result (S : Sampler) (O : SetOrder) (g : rng_state S)
    (negatives : gset string) (lists : feature_lists) (num_pos num_neg : Z) :
  aligned lists →
  (∃ r, _sample_list S O g negatives lists num_pos num_neg = Ok r) ∨
  _sample_list S O g negatives lists num_pos num_neg = Raise ValueError.
Proof.
  unfold _sample_list, aligned. intros Hal.
  destruct (random_sample S g (seq 0 (length (fl_movie_id lists))) num_pos)
    as [[sampled_indices g1] | e] eqn:Hpos.
  2: { right. by apply random_sample_Raise in Hpos as [-> _]. }
  cbn [mbind result_bind].
  apply random_sample_Ok in Hpos as (_ & idx & _ & _ & Hidx).
  apply getitems_seq in Hidx as [-> Hlt].
  destruct (py_getitems_in_range (fl_movie_id lists) idx Hlt) as [pos_ids ->].
  cbn [mbind result_bind].
  rewrite Hal in Hlt.
  destruct (py_getitems_in_range (fl_user_rating lists) idx Hlt) as [pos_ratings ->].
  cbn [mbind result_bind].
  destruct (random_sample S g1 (O negatives) num_neg) as [[neg_ids g2] | e] eqn:Hneg.
  - left. by eexists.
  - right. by apply random_sample_Raise in Hneg as [-> _].
Qed.

(** ** The loops of [movielens_to_listwise] *)

Section listwise_loops.
Context (S : Sampler) (O : SetOrder) (num_pos num_neg : Z).

Lemma sample_lists_Ok (g g' : rng_state S) (negatives : gset string) (user : string)
    (lists : feature_lists) (n : nat) (slices out : list list_example) :
  sample_lists S O g negatives user lists num_pos num_neg n slices = Ok (out, g') →
  ∃ new, out = slices ++ new ∧ length new = n ∧
    Forall (λ e, le_user_id e = user ∧
                 is_sample lists negatives num_pos num_neg
                   (le_movie_id e) (le_user_rating e)) new.
Proof.
  revert g slices. induction n as [| n IH]; intros g slices; cbn [sample_lists].
  - intros [= <- <-]. exists []. by rewrite app_nil_r.
  - destruct (_sample_list S O g negatives lists num_pos num_neg)
      as [[[ids ratings] g1] | e] eqn:Hs; [| done].
    cbn [mbind result_bind].
    intros (new & -> & Hlen & Hall)%IH.
    exists (ListExample user ids ratings :: new).
    rewrite <- app_assoc. split_and!; [done | simpl; lia |].
    constructor; [| done]. split; [done |]. by eapply _sample_list_Ok.
Qed.

Lemma sample_lists_Raise (g : rng_state S) (negatives : gset string) (user : string)
    (lists : feature_lists) (n : nat) (slices : list list_example) (e : py_error) :
  aligned lists →
  sample_lists S O g negatives user lists num_pos num_neg n slices = Raise e →
  e = ValueError.
Proof.
  intros Hal. revert g slices. induction n as [| n IH]; intros g slices;
    cbn [sample_lists]; [done |].
  destruct (_sample_list_result S O g negatives lists num_pos num_neg Hal)
    as [[[[ids ratings] g1] ->] | ->]; cbn [mbind result_bind].
  - apply IH.
  - by intros [= <-].
Qed.

Lemma produced_by_cons (movie_id_vocab : gset string) (it : string * feature_lists)
    (items : list (string * feature_lists)) (e : list_example) :
  produced_by num_pos num_neg movie_id_vocab items e → produced_by num_pos num_neg movie_id_vocab (it :: items) e.
Proof. intros (lists & Hin & Hs). exists lists. split; [by right | done]. Qed.

Lemma listwise_loop_Ok (g g' : rng_state S) (movie_id_vocab : gset string)
    (items : list (string * feature_lists)) (train_n test_n : Z)
    (train test train' test' : list list_example) :
  listwise_loop S O g movie_id_vocab items train_n test_n num_pos num_neg train test
  = Ok ((train', test'), g') →
  ∃ new_train new_test,
    train' = train ++ new_train ∧ test' = test ++ new_test ∧
    Forall (produced_by num_pos num_neg movie_id_vocab items) new_train ∧
    Forall (produced_by num_pos num_neg movie_id_vocab items) new_test ∧
    ((0 < train_n ∨ 0 < test_n)%Z →
     Forall (λ it, ∃ ids ratings,
               is_sample it.2 (movie_id_vocab ∖ list_to_set (fl_movie_id it.2))
                 num_pos num_neg ids ratings) items).
Proof.
  revert g train test.
  induction items as [| [user lists] items IH]; intros g train test; cbn [listwise_loop].
  - intros [= <- <- <-]. exists [], []. rewrite !app_nil_r.
    split_and!; [done | done | constructor | constructor | constructor].
  - cbv zeta. set (negatives := movie_id_vocab ∖ list_to_set (fl_movie_id lists)).
    destruct (sample_lists S O g negatives user lists num_pos num_neg
                (Z.to_nat train_n) train) as [[train1 g1] | e] eqn:Htrain; [| done].
    cbn [mbind result_bind].
    destruct (sample_lists S O g1 negatives user lists num_pos num_neg
                (Z.to_nat test_n) test) as [[test1 g2] | e] eqn:Htest; [| done].
    cbn [mbind result_bind].
    apply sample_lists_Ok in Htrain as (n1 & -> & Hlen1 & Hall1).
    apply sample_lists_Ok in Htest as (n2 & -> & Hlen2 & Hall2).
    intros (new_train & new_test & -> & -> & Hnt & Hns & Hitems)%IH.
    exists (n1 ++ new_train), (n2 ++ new_test). rewrite <- !app_assoc.
    assert (Hhere : ∀ n, Forall (λ e, le_user_id e = user ∧
                 is_sample lists negatives num_pos num_neg
                   (le_movie_id e) (le_user_rating e)) n →
              Forall (produced_by num_pos num_neg movie_id_vocab ((user, lists) :: items)) n).
    { intros n Hn. eapply Forall_impl; [exact Hn |]. intros e [Hu Hs].
      exists lists. split; [rewrite Hu; by left | done]. }
    split_and!; [done | done | | |].
    + apply Forall_app. split; [by apply Hhere |].
      eapply Forall_impl; [exact Hnt |]. intros e. apply produced_by_cons.
    + apply Forall_app. split; [by apply Hhere |].
      eapply Forall_impl; [exact Hns |]. intros e. apply produced_by_cons.
    + intros Hn. constructor; [| by apply Hitems]. cbn [snd].
      destruct Hn as [Hn | Hn].
      * destruct n1 as [| e n1]; [simpl in Hlen1; lia |].
        apply Forall_cons_1 in Hall1 as [[_ Hs] _]. by eexists _, _.
      * destruct n2 as [| e n2]; [simpl in Hlen2; lia |].
        apply Forall_cons_1 in Hall2 as [[_ Hs] _]. by eexists _, _.
Qed.

Lemma listwise_loop_Raise (g : rng_state S) (movie_id_vocab : gset string)
    (items : list (string * feature_lists)) (train_n test_n : Z)
    (train test : list list_example) (e : py_error) :
  Forall (λ it, aligned it.2) items →
  listwise_loop S O g movie_id_vocab items train_n test_n num_pos num_neg train test
  = Raise e →
  e = ValueError.
Proof.
  intros Hal. revert g train test.
  induction Hal as [| [user lists] items Hl _ IH]; intros g train test;
    cbn [listwise_loop]; [done |].
  cbv zeta. set (negatives := movie_id_vocab ∖ list_to_set (fl_movie_id lists)).
  destruct (sample_lists S O g negatives user lists num_pos num_neg
              (Z.to_nat train_n) train) as [[train1 g1] | e1] eqn:Htrain.
  2: { cbn [mbind result_bind]. intros [= <-]. by eapply sample_lists_Raise. }
  cbn [mbind result_bind].
  destruct (sample_lists S O g1 negatives user lists num_pos num_neg
              (Z.to_nat test_n) test) as [[test1 g2] | e1] eqn:Htest.
  2: { cbn [mbind result_bind]. intros [= <-]. by eapply sample_lists_Raise. }
  cbn [mbind result_bind]. apply IH.
Qed.
End listwise_loops.

(** ** Grouping the ratings by user *)

Lemma filter_user_nil (rows : list rating) (u : string) :
  filter (λ r, user_id r = u) rows = [] ↔ u ∉ user_id <$> rows.
Proof.
  rewrite list_elem_of_fmap. split.
  - intros Hnil (r & -> & Hr).
    assert (r ∈ filter (λ r', user_id r' = user_id r) rows) as Hin
      by by apply list_elem_of_filter.
    rewrite Hnil in Hin. by apply elem_of_nil in Hin.
  - intros Hnin. destruct (filter _ rows) as [| r rs] eqn:Hfr; [done |].
    exfalso. apply Hnin. exists r.
    assert (r ∈ filter (λ r', user_id r' = u) rows) as [? ?]%list_elem_of_filter
      by (rewrite Hfr; by left).
    done.
Qed.

Lemma group_fold_NoDup (d : list (string * feature_lists)) (rows : list rating) :
  NoDup (d.*1) → NoDup ((foldl add_example d rows).*1).
Proof.
  revert d. induction rows as [| r rows IH]; intros d Hnd; cbn [foldl]; [done |].
  apply IH. by apply dd_modify_NoDup.
Qed.

Lemma group_fold_lookup (d : list (string * feature_lists)) (rows : list rating)
    (u : string) :
  dd_lookup u (foldl add_example d rows)
  = match filter (λ r, user_id r = u) rows with
    | [] => dd_lookup u d
    | rs =>
        let fl0 := default_or (FeatureLists [] []) (dd_lookup u d) in
        Some (FeatureLists (fl_movie_id fl0 ++ (movie_id <$> rs))
                           (fl_user_rating fl0 ++ (user_rating <$> rs)))
    end.
Proof.
  revert d. induction rows as [| r rows IH]; intros d; cbn [foldl]; [done |].
  rewrite IH, filter_cons. unfold add_example at 1 2. rewrite !dd_lookup_modify.
  destruct (decide (user_id r = u)) as [Hu | Hu].
  - rewrite decide_True by done. rewrite Hu.
    cbn [default_or from_option id fl_movie_id fl_user_rating].
    destruct (filter _ rows) as [| r' rs]; cbv zeta.
    + by rewrite !fmap_cons.
    + by rewrite !fmap_cons, <- !app_assoc.
  - rewrite decide_False by done. done.
Qed.

Lemma group_by_user_NoDup (rating_dataset : list rating) :
  NoDup ((group_by_user rating_dataset).*1).
Proof. apply group_fold_NoDup, NoDup_nil_2. Qed.

(** The lists of a user are the movies and the ratings of the user's rows,
    in the order of the dataset. *)
Lemma group_by_user_entry (rating_dataset : list rating) (u : string)
    (lists : feature_lists) :
  (u, lists) ∈ group_by_user rating_dataset ↔
  filter (λ r, user_id r = u) rating_dataset ≠ [] ∧
  lists = FeatureLists (movie_id <$> filter (λ r, user_id r = u) rating_dataset)
                       (user_rating <$> filter (λ r, user_id r = u) rating_dataset).
Proof.
  rewrite (elem_of_dd_lookup _ _ _ (group_by_user_NoDup rating_dataset)).
  unfold group_by_user. rewrite group_fold_lookup. cbn [dd_lookup].
  destruct (filter _ rating_dataset) as [| r rs]; cbv zeta.
  - split; [done | by intros [? _]].
  - cbn [default_or from_option fl_movie_id fl_user_rating app].
    split; [intros [= <-]; by split | by intros [_ ->]].
Qed.

Lemma group_by_user_aligned (rating_dataset : list rating) :
  Forall (λ it, aligned it.2) (group_by_user rating_dataset).
Proof.
  apply Forall_forall. intros [u lists] [_ ->]%group_by_user_entry.
  unfold aligned. cbn [snd fl_movie_id fl_user_rating]. by rewrite !length_fmap.
Qed.

(** ** List examples *)

(** Every list example returned is a sample of its user's rows and unrated
    movies; and when at least one list per user is asked for, every user of
    the dataset was sampled. *)
Lemma movielens_to_listwise_Ok (S : Sampler) (O : SetOrder) (g g' : rng_state S)
    (rating_dataset : list rating) (movie_dataset : list string)
    (train_n test_n num_pos num_neg : Z) (train test : list list_example) :
  movielens_to_listwise S O g rating_dataset movie_dataset train_n test_n num_pos num_neg
  = Ok ((train, test), g') →
  (∀ e, e ∈ train ++ test →
     is_sample (FeatureLists (movie_id <$> rows_of rating_dataset (le_user_id e))
                             (user_rating <$> rows_of rating_dataset (le_user_id e)))
       (unrated rating_dataset movie_dataset (le_user_id e))
       num_pos num_neg (le_movie_id e) (le_user_rating e)) ∧
  ((0 < train_n ∨ 0 < test_n)%Z →
   ∀ u, u ∈ user_id <$> rating_dataset →
     (0 ≤ num_pos ≤ Z.of_nat (length (rows_of rating_dataset u)))%Z ∧
     (0 ≤ num_neg ≤ Z.of_nat (size (unrated rating_dataset movie_dataset u)))%Z).
Proof.
  unfold movielens_to_listwise.
  intros (new_train & new_test & -> & -> & Hnt & Hns & Hitems)%listwise_loop_Ok.
  cbn [app]. split.
  - intros e He.
    assert (Hp : produced_by num_pos num_neg (list_to_set movie_dataset)
                   (group_by_user rating_dataset) e).
    { apply elem_of_app in He as [He | He];
        [rewrite Forall_forall in Hnt | rewrite Forall_forall in Hns]; auto. }
    destruct Hp as (lists & [_ ->]%group_by_user_entry & Hs). exact Hs.
  - intros Hn u Hu. specialize (Hitems Hn). rewrite Forall_forall in Hitems.
    assert (Hne : rows_of rating_dataset u ≠ []).
    { unfold rows_of. intros Hnil%filter_user_nil. done. }
    pose proof (proj2 (group_by_user_entry rating_dataset u _) (conj Hne eq_refl)) as Hin.
    destruct (Hitems _ Hin) as (ids & ratings & Hpos & Hneg & _).
    cbn [snd fl_movie_id] in Hpos, Hneg. rewrite length_fmap in Hpos. done.
Qed.

(** The positive part of a sample: rows of the user read at distinct
    positions. *)
Lemma sample_positive_rows (rows : list rating) (idx : list nat)
    (pos_ids : list string) (pos_ratings : list Q) :
  Forall2 (λ i m, (movie_id <$> rows) !! i = Some m) idx pos_ids →
  Forall2 (λ i q, (user_rating <$> rows) !! i = Some q) idx pos_ratings →
  ∃ picked, Forall2 (λ i r, rows !! i = Some r) idx picked ∧
            pos_ids = movie_id <$> picked ∧ pos_ratings = user_rating <$> picked.
Proof.
  intros Hids. revert pos_ratings.
  induction Hids as [| i m idx pos_ids Hi Hids IH]; intros pos_ratings Hrs.
  - apply Forall2_nil_inv_l in Hrs as ->. exists []. by split; [constructor |].
  - apply Forall2_cons_inv_l in Hrs as (q & qs & Hq & Hqs & ->).
    destruct (IH qs Hqs) as (picked & Hp & -> & ->).
    apply list_lookup_fmap_Some in Hi as (r & -> & Hr).
    apply list_lookup_fmap_Some in Hq as (r' & -> & Hr'). simplify_eq.
    exists (r :: picked). split; [by constructor | done].
Qed.

(** C4. In every list example returned, an entry at a position below
    [num_pos] is a movie of one of the user's ratings together with the
    rating of that very row; an entry at a later position carries rating 0
    and is a movie of the catalog that no rating of the user names. *)
Theorem listwise_positive_and_negative_entries (S : Sampler) (O : SetOrder)
    (g g' : rng_state S) (rating_dataset : list rating) (movie_dataset : list string)
    (train_n test_n num_pos num_neg : Z) (train test : list list_example)
    (e : list_example) (i : nat) (m : string) (q : Q) :
  movielens_to_listwise S O g rating_dataset movie_dataset train_n test_n num_pos num_neg
  = Ok ((train, test), g') →
  e ∈ train ++ test →
  le_movie_id e !! i = Some m → le_user_rating e !! i = Some q →
  (i < Z.to_nat num_pos → Rating (le_user_id e) m q ∈ rating_dataset) ∧
  (Z.to_nat num_pos ≤ i →
   q = 0%Q ∧ m ∈ movie_dataset ∧
   ∀ r, r ∈ rating_dataset → user_id r = le_user_id e → movie_id r ≠ m).
Proof.
  intros Hrun He Hm Hq.
  destruct (movielens_to_listwise_Ok _ _ _ _ _ _ _ _ _ _ _ _ Hrun) as [Hsample _].
  destruct (Hsample e He)
    as (_ & _ & idx & pos_ids & pos_ratings & neg_ids
        & _ & Hlen & Hids & Hrs & _ & _ & Hneg & Heq_ids & Heq_rs).
  cbn [fl_movie_id fl_user_rating] in Hids, Hrs.
  destruct (sample_positive_rows _ _ _ _ Hids Hrs) as (picked & Hpicked & -> & ->).
  assert (Hlp : length picked = Z.to_nat num_pos)
    by (rewrite <- Hlen; symmetry; by eapply Forall2_length).
  rewrite Heq_ids in Hm. rewrite Heq_rs in Hq. split.
  - intros Hi.
    rewrite lookup_app_l in Hm by (rewrite length_fmap; lia).
    rewrite lookup_app_l in Hq by (rewrite length_fmap; lia).
    apply list_lookup_fmap_Some in Hm as (r & -> & Hr).
    apply list_lookup_fmap_Some in Hq as (r' & -> & Hr'). simplify_eq.
    destruct (Forall2_lookup_r _ _ _ _ _ Hpicked Hr) as (j & _ & Hj).
    apply list_elem_of_lookup_2 in Hj.
    apply list_elem_of_filter in Hj as [Hu Hin]. rewrite <- Hu. by destruct r.
  - intros Hi.
    rewrite lookup_app_r in Hm by (rewrite length_fmap; lia).
    rewrite lookup_app_r in Hq by (rewrite length_fmap; lia).
    apply lookup_replicate in Hq as [-> _].
    apply list_elem_of_lookup_2, Hneg in Hm. unfold unrated in Hm.
    apply elem_of_difference in Hm as [Hcat Hnot].
    apply elem_of_list_to_set in Hcat. split_and!; [done | done |].
    intros r Hr Hu Hmr. apply Hnot. apply elem_of_list_to_set, list_elem_of_fmap.
    exists r. split; [done |]. by apply list_elem_of_filter.
Qed.

Lemma listwise_positive_and_negative_entries_witness :
  let rating_dataset := [Rating "U" "A" 5; Rating "U" "B" 3] in
  let movie_dataset := ["A"; "B"; "C"; "D"]%string in
  (2 < Z.to_nat 2 → Rating "U" "C" 0 ∈ rating_dataset) ∧
  (Z.to_nat 2 ≤ 2 →
   0%Q = 0%Q ∧ "C"%string ∈ movie_dataset ∧
   ∀ r, r ∈ rating_dataset → user_id r = "U"%string → movie_id r ≠ "C"%string).
Proof.
  intros rating_dataset movie_dataset.
  apply (listwise_positive_and_negative_entries lcg_sampler canonical_order
           42%Z 1314989459%Z rating_dataset movie_dataset 2 1 2 1
           [ListExample "U" ["A"; "B"; "C"] [5%Q; 3%Q; 0%Q];
            ListExample "U" ["B"; "A"; "D"] [3%Q; 5%Q; 0%Q]]
           [ListExample "U" ["A"; "B"; "C"] [5%Q; 3%Q; 0%Q]]
           (ListExample "U" ["A"; "B"; "C"] [5%Q; 3%Q; 0%Q]) 2 "C"%string 0%Q).
  - vm_compute. reflexivity.
  - by left.
  - reflexivity.
  - reflexivity.
Defined.

(** C3, as the code has it. Every list example returned has exactly
    [num_pos + num_neg] movies and as many ratings; its first [num_pos]
    movies are read at distinct positions of the user's ratings, its
    remaining movies are distinct movies of the catalog that the user did
    not rate; and no movie occurs twice in it provided no two ratings of the
    user name the same movie. *)
Theorem listwise_example_shape (S : Sampler) (O : SetOrder)
    (g g' : rng_state S) (rating_dataset : list rating) (movie_dataset : list string)
    (train_n test_n num_pos num_neg : Z) (train test : list list_example)
    (e : list_example) :
  movielens_to_listwise S O g rating_dataset movie_dataset train_n test_n num_pos num_neg
  = Ok ((train, test), g') →
  e ∈ train ++ test →
  Z.of_nat (length (le_movie_id e)) = (num_pos + num_neg)%Z ∧
  length (le_user_rating e) = length (le_movie_id e) ∧
  (∃ idx, NoDup idx ∧
     Forall2 (λ i m, (movie_id <$> rows_of rating_dataset (le_user_id e)) !! i = Some m)
       idx (take (Z.to_nat num_pos) (le_movie_id e))) ∧
  NoDup (drop (Z.to_nat num_pos) (le_movie_id e)) ∧
  (∀ m, m ∈ drop (Z.to_nat num_pos) (le_movie_id e) →
     m ∈ unrated rating_dataset movie_dataset (le_user_id e)) ∧
  (NoDup (movie_id <$> rows_of rating_dataset (le_user_id e)) →
   NoDup (le_movie_id e)).
Proof.
  intros Hrun He.
  destruct (movielens_to_listwise_Ok _ _ _ _ _ _ _ _ _ _ _ _ Hrun) as [Hsample _].
  destruct (Hsample e He)
    as (Hnp & Hnn & idx & pos_ids & pos_ratings & neg_ids
        & Hnd & Hlen & Hids & Hrs & Hndneg & Hlenneg & Hneg & Heq_ids & Heq_rs).
  cbn [fl_movie_id fl_user_rating] in Hids, Hrs.
  assert (Hlp : length pos_ids = Z.to_nat num_pos)
    by (rewrite <- Hlen; symmetry; by eapply Forall2_length).
  assert (Hlr : length pos_ratings = Z.to_nat num_pos)
    by (rewrite <- Hlen; symmetry; by eapply Forall2_length).
  rewrite Heq_ids, Heq_rs, !length_app, length_replicate.
  rewrite take_app_length' by done. rewrite drop_app_length' by done.
  split_and!.
  - lia.
  - lia.
  - by exists idx.
  - done.
  - done.
  - intros Hrows. apply NoDup_app. split_and!; [| | done].
    + by eapply getitems_NoDup.
    + intros m Hpos Hm. apply Hneg in Hm. unfold unrated in Hm.
      apply elem_of_difference in Hm as [_ Hnot]. apply Hnot.
      apply elem_of_list_to_set. by eapply getitems_elem_of.
Qed.

Lemma listwise_example_shape_witness :
  let rating_dataset := [Rating "U" "A" 5; Rating "U" "B" 3] in
  let movie_dataset := ["A"; "B"; "C"; "D"]%string in
  let e := ListExample "U" ["B"; "A"; "D"] [3%Q; 5%Q; 0%Q] in
  Z.of_nat (length (le_movie_id e)) = (2 + 1)%Z ∧
  length (le_user_rating e) = length (le_movie_id e) ∧
  (∃ idx, NoDup idx ∧
     Forall2 (λ i m, (movie_id <$> rows_of rating_dataset (le_user_id e)) !! i = Some m)
       idx (take (Z.to_nat 2) (le_movie_id e))) ∧
  NoDup (drop (Z.to_nat 2) (le_movie_id e)) ∧
  (∀ m, m ∈ drop (Z.to_nat 2) (le_movie_id e) →
     m ∈ unrated rating_dataset movie_dataset (le_user_id e)) ∧
  (NoDup (movie_id <$> rows_of rating_dataset (le_user_id e)) →
   NoDup (le_movie_id e)).
Proof.
  intros rating_dataset movie_dataset e.
  apply (listwise_example_shape lcg_sampler canonical_order
           42%Z 1314989459%Z rating_dataset movie_dataset 2 1 2 1
           [ListExample "U" ["A"; "B"; "C"] [5%Q; 3%Q; 0%Q]; e]
           [ListExample "U" ["A"; "B"; "C"] [5%Q; 3%Q; 0%Q]] e).
  - vm_compute. reflexivity.
  - right. by left.
Defined.

(** A user who rated the same movie twice gets it twice in a list. *)
Lemma listwise_duplicate_movie :
  movielens_to_listwise lcg_sampler canonical_order 42%Z
    [Rating "U" "A" 5; Rating "U" "A" 3] ["A"; "B"; "C"; "D"]%string 1 0 2 0
  = Ok (([ListExample "U" ["A"; "A"] [5%Q; 3%Q]], []), 1116302264%Z) ∧
  ¬ NoDup ["A"; "A"]%string.
Proof.
  split; [vm_compute; reflexivity |].
  intros [Hnin _]%NoDup_cons. apply Hnin. by left.
Qed.

(** ** Insufficient population *)

(** C5, as the code has it. When at least one list per user is requested and
    some user of the dataset has fewer ratings than [num_pos], or fewer
    unrated catalog movies than [num_neg] (or a count is negative), the
    whole call raises [ValueError]: no list is returned for any user, and
    none is ever returned short. *)
Theorem listwise_insufficient_population_raises (S : Sampler) (O : SetOrder)
    (g : rng_state S) (rating_dataset : list rating) (movie_dataset : list string)
    (train_n test_n num_pos num_neg : Z) (u : string) :
  (0 < train_n ∨ 0 < test_n)%Z →
  u ∈ user_id <$> rating_dataset →
  (num_pos < 0 ∨ Z.of_nat (length (rows_of rating_dataset u)) < num_pos ∨
   num_neg < 0 ∨ Z.of_nat (size (unrated rating_dataset movie_dataset u)) < num_neg)%Z →
  movielens_to_listwise S O g rating_dataset movie_dataset train_n test_n num_pos num_neg
  = Raise ValueError.
Proof.
  intros Hn Hu Hbad.
  destruct (movielens_to_listwise S O g rating_dataset movie_dataset
              train_n test_n num_pos num_neg) as [[[train test] g'] | e] eqn:Hrun.
  - destruct (movielens_to_listwise_Ok _ _ _ _ _ _ _ _ _ _ _ _ Hrun) as [_ Hall].
    destruct (Hall Hn u Hu). lia.
  - unfold movielens_to_listwise in Hrun.
    apply listwise_loop_Raise in Hrun as ->; [done |].
    apply group_by_user_aligned.
Qed.

Lemma listwise_insufficient_population_raises_witness :
  movielens_to_listwise lcg_sampler canonical_order 42%Z
    [Rating "V" "A" 4] ["A"; "B"; "C"; "D"]%string 1 1 2 0
  = Raise ValueError.
Proof.
  apply (listwise_insufficient_population_raises lcg_sampler canonical_order 42%Z
           [Rating "V" "A" 4] ["A"; "B"; "C"; "D"]%string 1 1 2 0 "V"%string).
  - lia.
  - by left.
  - right. left. vm_compute. reflexivity.
Defined.

(** User U has the two ratings asked for, user V has one: nothing is
    returned, not even the lists of U. *)
Lemma listwise_one_short_user_fails_all :
  let rating_dataset := [Rating "U" "A" 5; Rating "U" "B" 3; Rating "V" "A" 4] in
  length (rows_of rating_dataset "U") = 2 ∧
  length (rows_of rating_dataset "V") = 1 ∧
  movielens_to_listwise lcg_sampler canonical_order 42%Z
    rating_dataset ["A"; "B"; "C"; "D"]%string 1 1 2 0
  = Raise ValueError.
Proof. split_and!; vm_compute; reflexivity. Qed.

(** ** Reproducibility *)

Section set_order.
Context (S : Sampler) (O1 O2 : SetOrder) (num_pos num_neg : Z).
Context (Hsame : num_neg = 0%Z ∨ ∀ s, O1 s = O2 s).

Lemma random_sample_negatives (g : rng_state S) (negatives : gset string) :
  random_sample S g (O1 negatives) num_neg = random_sample S g (O2 negatives) num_neg.
Proof using Hsame.
  destruct Hsame as [-> | Heq]; [| by rewrite Heq].
  unfold random_sample. rewrite !set_tuple_length.
  destruct (sample_positions_Some S g (size negatives) 0 ltac:(lia))
    as (idx & g' & -> & Hlen & _).
  by destruct idx.
Qed.

Lemma _sample_list_set_order (g : rng_state S) (negatives : gset string)
    (lists : feature_lists) :
  _sample_list S O1 g negatives lists num_pos num_neg
  = _sample_list S O2 g negatives lists num_pos num_neg.
Proof using Hsame.
  unfold _sample_list.
  destruct (random_sample S g (seq 0 (length (fl_movie_id lists))) num_pos)
    as [[sampled_indices g1] | e]; [| done].
  cbn [mbind result_bind].
  destruct (py_getitems (fl_movie_id lists) sampled_indices); [| done].
  cbn [mbind result_bind].
  destruct (py_getitems (fl_user_rating lists) sampled_indices); [| done].
  cbn [mbind result_bind]. by rewrite random_sample_negatives.
Qed.

Lemma sample_lists_set_order (g : rng_state S) (negatives : gset string)
    (user : string) (lists : feature_lists) (n : nat) (slices : list list_example) :
  sample_lists S O1 g negatives user lists num_pos num_neg n slices
  = sample_lists S O2 g negatives user lists num_pos num_neg n slices.
Proof using Hsame.
  revert g slices. induction n as [| n IH]; intros g slices; cbn [sample_lists]; [done |].
  rewrite _sample_list_set_order.
  destruct (_sample_list S O2 g negatives lists num_pos num_neg)
    as [[[ids ratings] g1] | e]; [| done].
  cbn [mbind result_bind]. apply IH.
Qed.

Lemma listwise_loop_set_order (g : rng_state S) (movie_id_vocab : gset string)
    (items : list (string * feature_lists)) (train_n test_n : Z)
    (train test : list list_example) :
  listwise_loop S O1 g movie_id_vocab items train_n test_n num_pos num_neg train test
  = listwise_loop S O2 g movie_id_vocab items train_n test_n num_pos num_neg train test.
Proof using Hsame.
  revert g train test.
  induction items as [| [user lists] items IH]; intros g train test;
    cbn [listwise_loop]; [done |].
  cbv zeta. rewrite sample_lists_set_order.
  destruct (sample_lists S O2 g _ user lists num_pos num_neg (Z.to_nat train_n) train)
    as [[train1 g1] | e]; [| done].
  cbn [mbind result_bind]. rewrite sample_lists_set_order.
  destruct (sample_lists S O2 g1 _ user lists num_pos num_neg (Z.to_nat test_n) test)
    as [[test1 g2] | e]; [| done].
  cbn [mbind result_bind]. apply IH.
Qed.
End set_order.

(** C6, as the code has it. From the same generator state and the same
    inputs, two runs return the same result when Python iterates over the
    sets of unrated movies in the same order in both; and when
    [num_neg = 0] (the default) they do whatever those orders are. *)
Theorem listwise_deterministic (S : Sampler) (O1 O2 : SetOrder) (g : rng_state S)
    (rating_dataset : list rating) (movie_dataset : list string)
    (train_n test_n num_pos num_neg : Z) :
  (num_neg = 0%Z ∨ ∀ s, O1 s = O2 s) →
  movielens_to_listwise S O1 g rating_dataset movie_dataset train_n test_n num_pos num_neg
  = movielens_to_listwise S O2 g rating_dataset movie_dataset train_n test_n num_pos num_neg.
Proof.
  intros Hsame. unfold movielens_to_listwise. by apply listwise_loop_set_order.
Qed.

Lemma listwise_deterministic_witness :
  movielens_to_listwise lcg_sampler canonical_order 42%Z
    [Rating "U" "A" 5; Rating "U" "B" 3] ["A"; "B"; "C"; "D"]%string 2 1 2 0
  = movielens_to_listwise lcg_sampler reversed_order 42%Z
    [Rating "U" "A" 5; Rating "U" "B" 3] ["A"; "B"; "C"; "D"]%string 2 1 2 0.
Proof.
  apply (listwise_deterministic lcg_sampler canonical_order reversed_order 42%Z
           [Rating "U" "A" 5; Rating "U" "B" 3] ["A"; "B"; "C"; "D"]%string 2 1 2 0).
  left. reflexivity.
Defined.

(** The same seed and the same inputs under two iteration orders of the set
    of unrated movies: the negatives drawn differ. *)
Lemma listwise_depends_on_set_order :
  movielens_to_listwise lcg_sampler canonical_order 42%Z
    [Rating "U" "A" 5; Rating "U" "B" 3] ["A"; "B"; "C"; "D"]%string 1 0 2 1
  = Ok (([ListExample "U" ["A"; "B"; "C"] [5%Q; 3%Q; 0%Q]], []), 1000676753%Z) ∧
  movielens_to_listwise lcg_sampler reversed_order 42%Z
    [Rating "U" "A" 5; Rating "U" "B" 3] ["A"; "B"; "C"; "D"]%string 1 0 2 1
  = Ok (([ListExample "U" ["A"; "B"; "D"] [5%Q; 3%Q; 0%Q]], []), 1000676753%Z).
Proof. split; vm_compute; reflexivity. Qed.

(** * Further properties of [evaluate] *)

(** ** When [evaluate] returns, and how it fails *)


Lemma in_catalog_is_Some (movies : list string) (rows : list rating) :
  Forall (λ r, is_Some (movie_vocabulary movies !! movie_id r)) rows ↔
  Forall (λ r, movie_id r ∈ movies) rows.
Proof.
  rewrite !Forall_forall. split; intros H r Hr; apply movie_vocabulary_is_Some; auto.
Qed.

(** Indexing succeeds when every row's movie is in the catalog. *)
Lemma index_rows_in_catalog (movies : list string) (rows : list rating)
    (d : list (string * list nat)) :
  Forall (λ r, movie_id r ∈ movies) rows →
  ∃ d', index_rows (movie_vocabulary movies) rows d = Ok d'.
Proof.
  intros Hall.
  destruct (index_rows_result (movie_vocabulary movies) rows d)
    as [[_ Hok] | (r & Hr & Hnone & _)]; [done |].
  exfalso. apply not_in_vocabulary in Hnone. apply Hnone.
  rewrite Forall_forall in Hall. auto.
Qed.

Lemma train_index_in_catalog (movies : list string) (train : option (list rating)) :
  (∀ rows, train = Some rows → Forall (λ r, movie_id r ∈ movies) rows) →
  ∃ tr, train_index (movie_vocabulary movies) train = Ok tr.
Proof.
  intros Hall. destruct train as [rows |]; cbn [train_index]; [| by eexists].
  apply index_rows_in_catalog. by apply Hall.
Qed.




(** Indexing stops at the first row whose movie is not in the vocabulary. *)
Lemma index_rows_first_miss (vocab : gmap string nat) (pre post : list rating)
    (r : rating) (d : list (string * list nat)) :
  Forall (λ r', is_Some (vocab !! movie_id r')) pre →
  vocab !! movie_id r = None →
  index_rows vocab (pre ++ r :: post) d = Raise (KeyError (movie_id r)).
Proof.
  intros Hpre Hr. revert d.
  induction Hpre as [| r' pre [m Hm] _ IH]; intros d; cbn [app index_rows];
    unfold vocabulary_getitem.
  - by rewrite Hr.
  - rewrite Hm. cbn [mbind result_bind]. apply IH.
Qed.

(** The [KeyError] of [evaluate] names the first train interaction whose
    movie is missing from a non-empty catalog, whatever the test dataset
    holds. *)
Theorem evaluate_first_missing_train (A : Argsort)
    (user_model movie_model : string → list Q)
    (test : list rating) (movies : list string)
    (pre post : list rating) (r : rating) (k : Z) :
  movies ≠ [] →
  Forall (λ r', movie_id r' ∈ movies) pre →
  movie_id r ∉ movies →
  evaluate A user_model movie_model test movies (Some (pre ++ r :: post)) k
  = Raise (KeyError (movie_id r)).
Proof.
  intros Hne Hpre Hr. apply evaluate_KeyError_train; [done |].
  cbn [train_index]. apply index_rows_first_miss.
  - by apply in_catalog_is_Some.
  - by apply not_in_vocabulary.
Qed.

Lemma evaluate_first_missing_train_witness :
  evaluate stable_argsort example_user_model example_movie_model
    [watch "u" "m8"] ["m1"; "m2"]%string
    (Some ([watch "u" "m1"] ++ watch "u" "m9" :: [watch "v" "m7"])) 10
  = Raise (KeyError (movie_id (watch "u" "m9"))).
Proof.
  apply (evaluate_first_missing_train stable_argsort example_user_model
           example_movie_model [watch "u" "m8"] ["m1"; "m2"]%string
           [watch "u" "m1"] [watch "v" "m7"] (watch "u" "m9") 10).
  - done.
  - apply (bool_decide_unpack _). vm_compute. exact I.
  - apply (bool_decide_unpack _). vm_compute. exact I.
Defined.

(** When the train dataset is absent or wholly in the catalog, the
    [KeyError] names the first test interaction whose movie is missing. *)
Theorem evaluate_first_missing_test (A : Argsort)
    (user_model movie_model : string → list Q)
    (movies : list string) (train : option (list rating))
    (pre post : list rating) (r : rating) (k : Z) :
  movies ≠ [] →
  (∀ rows, train = Some rows → Forall (λ r', movie_id r' ∈ movies) rows) →
  Forall (λ r', movie_id r' ∈ movies) pre →
  movie_id r ∉ movies →
  evaluate A user_model movie_model (pre ++ r :: post) movies train k
  = Raise (KeyError (movie_id r)).
Proof.
  intros Hne Htrain Hpre Hr.
  destruct (train_index_in_catalog movies train Htrain) as [tr Htr].
  eapply evaluate_KeyError_test; [done | exact Htr |].
  apply index_rows_first_miss.
  - by apply in_catalog_is_Some.
  - by apply not_in_vocabulary.
Qed.

Lemma evaluate_first_missing_test_witness :
  evaluate stable_argsort example_user_model example_movie_model
    ([watch "u" "m1"] ++ watch "u" "m9" :: [watch "v" "m7"]) ["m1"; "m2"]%string
    (Some [watch "u" "m2"]) 10
  = Raise (KeyError (movie_id (watch "u" "m9"))).
Proof.
  apply (evaluate_first_missing_test stable_argsort example_user_model
           example_movie_model ["m1"; "m2"]%string (Some [watch "u" "m2"])
           [watch "u" "m1"] [watch "v" "m7"] (watch "u" "m9") 10).
  - done.
  - intros rows [= <-]. apply (bool_decide_unpack _). vm_compute. exact I.
  - apply (bool_decide_unpack _). vm_compute. exact I.
  - apply (bool_decide_unpack _). vm_compute. exact I.
Defined.

(** ** The selected indices *)

Lemma py_slice_to_take {A} (k : Z) (l : list A) :
  ∃ n, py_slice_to k l = take n l ∧
       n = if decide (0 ≤ k)%Z then Z.to_nat k else length l - Z.to_nat (- k).
Proof. unfold py_slice_to. case_decide; by eexists. Qed.

(** The selected indices are distinct positions of the score vector; there
    are [min(k, N)] of them for a cutoff [k >= 0], and [max(0, N + k)] for a
    negative one. *)
Theorem top_k_shape (A : Argsort) (scores : list Q) (k : Z) :
  NoDup (top_k A scores k) ∧
  Forall (λ i, i < length scores) (top_k A scores k) ∧
  length (top_k A scores k)
  = if decide (0 ≤ k)%Z then Z.to_nat k `min` length scores
    else length scores - Z.to_nat (- k).
Proof.
  unfold top_k. destruct (py_slice_to_take k (A (Qopp <$> scores))) as (n & -> & Hn).
  pose proof (argsort_perm A (Qopp <$> scores)) as Hperm.
  rewrite length_fmap in Hperm.
  assert (Hlen : length (A (Qopp <$> scores)) = length scores)
    by by rewrite Hperm, length_seq.
  split_and!.
  - eapply sublist_NoDup; [| apply sublist_take]. rewrite Hperm. apply NoDup_seq.
  - apply Forall_forall. intros i Hi.
    apply list_elem_of_lookup_1 in Hi as [p [Hp _]%lookup_take_Some].
    apply list_elem_of_lookup_2 in Hp as Hi.
    rewrite Hperm in Hi. apply elem_of_seq in Hi. lia.
  - rewrite length_take, Hlen, Hn. case_decide; lia.
Qed.

(** The selection is by score: no movie left out scores more than a movie
    that is selected. *)
Theorem top_k_highest_scores (A : Argsort) (scores : list Q) (k : Z)
    (i j : nat) (si sj : Q) :
  i ∈ top_k A scores k → j ∉ top_k A scores k →
  scores !! i = Some si → scores !! j = Some sj →
  (sj <= si)%Q.
Proof.
  unfold top_k. destruct (py_slice_to_take k (A (Qopp <$> scores))) as (n & -> & _).
  intros Hi Hj Hsi Hsj.
  pose proof (argsort_perm A (Qopp <$> scores)) as Hperm.
  rewrite length_fmap in Hperm.
  apply list_elem_of_lookup_1 in Hi as [p Hp].
  apply lookup_take_Some in Hp as [Hp Hpn].
  assert (Hjin : j ∈ A (Qopp <$> scores)).
  { rewrite Hperm. apply elem_of_seq. apply lookup_lt_Some in Hsj. lia. }
  apply list_elem_of_lookup_1 in Hjin as [q Hq].
  assert (Hqn : n ≤ q).
  { destruct (decide (n ≤ q)) as [? | Hlt]; [done |]. exfalso. apply Hj.
    apply (list_elem_of_lookup_2 _ q). rewrite lookup_take_lt by lia. done. }
  assert (Hle : (- si <= - sj)%Q).
  { apply (argsort_sorted A (Qopp <$> scores) p q i j); [lia | done | done | |];
      by rewrite list_lookup_fmap, ?Hsi, ?Hsj. }
  apply Qopp_le_compat in Hle. by rewrite !Qopp_involutive in Hle.
Qed.

Lemma top_k_highest_scores_witness : (2 <= 3)%Q.
Proof.
  apply (top_k_highest_scores stable_argsort [3%Q; 2%Q; 1%Q] 1 0 1 3 2).
  - vm_compute. by left.
  - apply (bool_decide_unpack _). vm_compute. exact I.
  - reflexivity.
  - reflexivity.
Defined.

(** A cutoff at least as large as the catalog selects every movie, so every
    test movie of the user is a hit. *)
Theorem hits_all_when_k_covers_catalog (A : Argsort) (scores : list Q) (k : Z)
    (test_movies : list nat) :
  (Z.of_nat (length scores) ≤ k)%Z →
  Forall (λ i, i < length scores) test_movies →
  hits (top_k A scores k) test_movies = length test_movies.
Proof.
  intros Hk Hall. unfold hits. f_equal. induction Hall as [| i tm Hi _ IH]; [done |].
  rewrite filter_cons, decide_True; [by rewrite IH |].
  by apply top_k_everything.
Qed.

Lemma hits_all_when_k_covers_catalog_witness :
  hits (top_k stable_argsort [3%Q; 2%Q; 1%Q] 10) [2; 0] = length [2; 0].
Proof.
  apply (hits_all_when_k_covers_catalog stable_argsort [3%Q; 2%Q; 1%Q] 10 [2; 0]).
  - simpl. lia.
  - apply (bool_decide_unpack _). vm_compute. exact I.
Defined.

(** Masking is an overwrite, not a removal: the score vector keeps its
    length, the score of a movie outside the train set is untouched, and the
    score of every train movie becomes the sentinel. *)
Theorem mask_scores_spec (scores : list Q) (train_movies : list nat) :
  length (mask_scores scores train_movies) = length scores ∧
  (∀ j, j ∉ train_movies → mask_scores scores train_movies !! j = scores !! j) ∧
  (∀ i, i ∈ train_movies → i < length scores →
        mask_scores scores train_movies !! i = Some masked_score).
Proof.
  split_and!.
  - apply mask_scores_length.
  - intros j. apply mask_scores_lookup_ne.
  - intros i. apply mask_scores_lookup.
Qed.

(** ** Users without train interactions *)

Lemma train_index_keys (vocab : gmap string nat) (rows : list rating)
    (tr : list (string * list nat)) (u : string) :
  train_index vocab (Some rows) = Ok tr →
  (u ∉ user_id <$> rows) → dd_get [] u tr = [].
Proof.
  cbn [train_index]. intros Htr Hu.
  rewrite dd_get_lookup.
  assert (Hnone : dd_lookup u tr = None).
  { apply dd_lookup_None. by rewrite (index_rows_keys _ _ _ u Htr). }
  by rewrite Hnone.
Qed.

Lemma metric_loop_ext (A : Argsort) (user_model : string → list Q)
    (movie_embeddings : list (list Q)) (train train' : option (list rating))
    (tr tr' : list (string * list nat)) (k : Z)
    (items : list (string * list nat)) (ps rs : list Q) :
  Forall (λ it, user_scores user_model movie_embeddings train tr it.1
                = user_scores user_model movie_embeddings train' tr' it.1) items →
  metric_loop A user_model movie_embeddings train tr k items ps rs
  = metric_loop A user_model movie_embeddings train' tr' k items ps rs.
Proof.
  intros Hall. revert ps rs.
  induction Hall as [| [u tm] items Heq _ IH]; intros ps rs; cbn [metric_loop]; [done |].
  cbn [fst] in Heq. cbv zeta. rewrite Heq.
  destruct (user_metrics _ tm k) as [[p r] | e]; [| done].
  cbn [mbind result_bind]. apply IH.
Qed.

(** A train dataset that is wholly in the catalog and shares no user with
    the test dataset changes nothing: [evaluate] returns what it returns
    without a train dataset. *)
Theorem evaluate_train_of_other_users (A : Argsort)
    (user_model movie_model : string → list Q)
    (test : list rating) (movies : list string) (rows : list rating) (k : Z) :
  Forall (λ r, movie_id r ∈ movies) rows →
  Forall (λ r, user_id r ∉ user_id <$> rows) test →
  evaluate A user_model movie_model test movies (Some rows) k
  = evaluate A user_model movie_model test movies None k.
Proof.
  intros Hrows Hdisj. destruct (decide (movies = [])) as [-> | Hne]; [done |].
  destruct (index_rows_in_catalog movies rows [] Hrows) as [tr Htr].
  destruct (index_rows_result (movie_vocabulary movies) test [])
    as [[_ [te Hte]] | (r & _ & _ & Hraise)].
  2: { rewrite (evaluate_KeyError_test _ _ _ _ _ (Some rows) _ tr _ Hne Htr Hraise).
       by rewrite (evaluate_KeyError_test _ _ _ _ _ None _ [] _ Hne eq_refl Hraise). }
  rewrite (evaluate_indexed _ _ _ _ _ (Some rows) _ tr te Hne Htr Hte).
  rewrite (evaluate_indexed _ _ _ _ _ None _ [] te Hne eq_refl Hte).
  rewrite (metric_loop_ext _ _ _ (Some rows) None tr []); [done |].
  apply Forall_forall. intros [u tm] Hin. cbn [fst]. unfold user_scores.
  assert (Hu : u ∈ user_id <$> test).
  { apply (index_rows_keys _ _ _ u Hte). apply list_elem_of_fmap.
    by exists (u, tm). }
  apply list_elem_of_fmap in Hu as (r & -> & Hr).
  rewrite Forall_forall in Hdisj.
  by rewrite (train_index_keys _ _ _ _ Htr (Hdisj r Hr)).
Qed.

Lemma evaluate_train_of_other_users_witness :
  evaluate stable_argsort example_user_model example_movie_model
    [watch "u" "m1"] ["m1"; "m2"]%string (Some [watch "v" "m1"]) 1
  = evaluate stable_argsort example_user_model example_movie_model
    [watch "u" "m1"] ["m1"; "m2"]%string None 1.
Proof.
  apply (evaluate_train_of_other_users stable_argsort example_user_model
           example_movie_model [watch "u" "m1"] ["m1"; "m2"]%string
           [watch "v" "m1"] 1).
  - apply (bool_decide_unpack _). vm_compute. exact I.
  - apply (bool_decide_unpack _). vm_compute. exact I.
Defined.

(** * Further properties of the listwise sampler *)

(** ** Grouping by user *)

Lemma group_by_user_snoc (rating_dataset : list rating) (r : rating) :
  group_by_user (rating_dataset ++ [r]) = add_example (group_by_user rating_dataset) r.
Proof. unfold group_by_user. by rewrite foldl_app. Qed.

(** [example_lists_by_user] holds the users in the order of their first
    rating, each once, with the movies and the ratings of that user's rows in
    the order of the dataset. *)
Theorem group_by_user_spec (rating_dataset : list rating) :
  (group_by_user rating_dataset).*1
  = reverse (remove_dups (reverse (user_id <$> rating_dataset))) ∧
  ∀ u lists, (u, lists) ∈ group_by_user rating_dataset ↔
    u ∈ user_id <$> rating_dataset ∧
    lists = FeatureLists (movie_id <$> rows_of rating_dataset u)
                         (user_rating <$> rows_of rating_dataset u).
Proof.
  split.
  - induction rating_dataset as [| r rd IH] using rev_ind; [done |].
    rewrite group_by_user_snoc. unfold add_example. rewrite dd_modify_keys.
    rewrite fmap_snoc, reverse_snoc. cbn [remove_dups].
    assert (Hiff : user_id r ∈ (group_by_user rd).*1
                   ↔ user_id r ∈ reverse (user_id <$> rd)).
    { by rewrite IH, elem_of_reverse, elem_of_remove_dups. }
    destruct (decide (user_id r ∈ (group_by_user rd).*1)) as [Hin | Hnin];
      destruct (decide_rel elem_of (user_id r) (reverse (user_id <$> rd)))
        as [Hin' | Hnin'].
    + done.
    + by apply Hiff in Hin.
    + by apply Hiff in Hin'.
    + by rewrite reverse_cons, IH.
  - intros u lists. rewrite group_by_user_entry. unfold rows_of.
    split; intros [Hu ->]; (split; [| done]).
    + destruct (decide (u ∈ user_id <$> rating_dataset)) as [? | Hn]; [done |].
      by apply filter_user_nil in Hn.
    + intros Hnil%filter_user_nil. done.
Qed.

(** ** When sampling succeeds *)





Section listwise_total.
Context (S : Sampler) (O : SetOrder) (num_pos num_neg : Z).



(** The users of the lists appended by the loop: each user of [items] in
    turn, as many times as lists were asked for. *)
Lemma listwise_loop_users (g g' : rng_state S) (movie_id_vocab : gset string)
    (items : list (string * feature_lists)) (train_n test_n : Z)
    (train test train' test' : list list_example) :
  listwise_loop S O g movie_id_vocab items train_n test_n num_pos num_neg train test
  = Ok ((train', test'), g') →
  le_user_id <$> train'
  = (le_user_id <$> train) ++ (items.*1 ≫= replicate (Z.to_nat train_n)) ∧
  le_user_id <$> test'
  = (le_user_id <$> test) ++ (items.*1 ≫= replicate (Z.to_nat test_n)).
Proof.
  assert (Hrep : ∀ user n (new : list list_example),
    length new = n → Forall (λ e, le_user_id e = user) new →
    le_user_id <$> new = replicate n user).
  { intros user n new <- Hall. induction Hall as [| e new He _ IH]; [done |].
    by rewrite fmap_cons, IH, He. }
  revert g train test.
  induction items as [| [user lists] items IH]; intros g train test; cbn [listwise_loop].
  - intros [= <- <- <-]. by rewrite !app_nil_r.
  - cbv zeta. set (negatives := movie_id_vocab ∖ list_to_set (fl_movie_id lists)).
    destruct (sample_lists S O g negatives user lists num_pos num_neg
                (Z.to_nat train_n) train) as [[train1 g1] | e] eqn:Htrain; [| done].
    cbn [mbind result_bind].
    destruct (sample_lists S O g1 negatives user lists num_pos num_neg
                (Z.to_nat test_n) test) as [[test1 g2] | e] eqn:Htest; [| done].
    cbn [mbind result_bind].
    apply sample_lists_Ok in Htrain as (n1 & -> & Hlen1 & Hall1).
    apply sample_lists_Ok in Htest as (n2 & -> & Hlen2 & Hall2).
    intros [-> ->]%IH. rewrite !fmap_app, fmap_cons, !bind_cons, <- !app_assoc.
    cbn [fst]. split; f_equal; f_equal; apply Hrep; try done;
      (eapply Forall_impl; [eassumption |]); by intros e [? _].
Qed.
End listwise_total.


(** Asking for no list at all never fails, returns two empty datasets and
    leaves the random generator as it was. *)
Theorem movielens_to_listwise_no_lists (S : Sampler) (O : SetOrder)
    (g : rng_state S) (rating_dataset : list rating) (movie_dataset : list string)
    (train_n test_n num_pos num_neg : Z) :
  (train_n ≤ 0)%Z → (test_n ≤ 0)%Z →
  movielens_to_listwise S O g rating_dataset movie_dataset train_n test_n num_pos num_neg
  = Ok (([], []), g).
Proof.
  intros Htr Hte. unfold movielens_to_listwise.
  generalize (group_by_user rating_dataset) as items.
  generalize (list_to_set movie_dataset : gset string) as vocab.
  intros vocab items. induction items as [| [user lists] items IH];
    cbn [listwise_loop]; [done |].
  cbv zeta. replace (Z.to_nat train_n) with 0 by lia.
  replace (Z.to_nat test_n) with 0 by lia.
  cbn [sample_lists mbind result_bind]. exact IH.
Qed.

Lemma movielens_to_listwise_no_lists_witness :
  movielens_to_listwise lcg_sampler canonical_order 42%Z
    [Rating "V" "A" 4] ["A"; "B"]%string 0 (-1) 5 5
  = Ok (([], []), 42%Z).
Proof.
  apply (movielens_to_listwise_no_lists lcg_sampler canonical_order 42%Z
           [Rating "V" "A" 4] ["A"; "B"]%string 0 (-1) 5 5); lia.
Defined.

(** The returned datasets hold, for each user in the order of
    [example_lists_by_user], [train_num_list_per_user] train lists and
    [test_num_list_per_user] test lists, all carrying that user's id. *)
Theorem movielens_to_listwise_lists_per_user (S : Sampler) (O : SetOrder)
    (g g' : rng_state S) (rating_dataset : list rating) (movie_dataset : list string)
    (train_n test_n num_pos num_neg : Z) (train test : list list_example) :
  movielens_to_listwise S O g rating_dataset movie_dataset train_n test_n num_pos num_neg
  = Ok ((train, test), g') →
  le_user_id <$> train
  = (group_by_user rating_dataset).*1 ≫= replicate (Z.to_nat train_n) ∧
  le_user_id <$> test
  = (group_by_user rating_dataset).*1 ≫= replicate (Z.to_nat test_n).
Proof.
  unfold movielens_to_listwise. intros Hrun.
  by apply listwise_loop_users in Hrun.
Qed.

Lemma movielens_to_listwise_lists_per_user_witness :
  let rating_dataset := [Rating "U" "A" 5; Rating "U" "B" 3] in
  let e1 := ListExample "U" ["A"; "B"; "C"] [5%Q; 3%Q; 0%Q] in
  let e2 := ListExample "U" ["B"; "A"; "D"] [3%Q; 5%Q; 0%Q] in
  le_user_id <$> [e1; e2] = (group_by_user rating_dataset).*1 ≫= replicate (Z.to_nat 2) ∧
  le_user_id <$> [e1] = (group_by_user rating_dataset).*1 ≫= replicate (Z.to_nat 1).
Proof.
  intros rating_dataset e1 e2.
  apply (movielens_to_listwise_lists_per_user lcg_sampler canonical_order
           42%Z 1314989459%Z rating_dataset ["A"; "B"; "C"; "D"]%string 2 1 2 1
           [e1; e2] [e1]).
  vm_compute. reflexivity.
Defined.

(** ** Sampling every rating of a user *)

Lemma getitems_omap {A} (l : list A) (idx : list nat) (xs : list A) :
  Forall2 (λ i x, l !! i = Some x) idx xs → xs = omap (λ i, l !! i) idx.
Proof.
  induction 1 as [| i x idx xs Hi _ IH]; [done |].
  cbn [omap list_omap]. by rewrite Hi, <- IH.
Qed.

Lemma omap_lookup_seq {A} (pre l : list A) :
  omap (λ i, (pre ++ l) !! i) (seq (length pre) (length l)) = l.
Proof.
  revert pre. induction l as [| x l IH]; intros pre; [done |].
  cbn [length seq omap list_omap]. rewrite list_lookup_middle by done.
  f_equal. specialize (IH (pre ++ [x])).
  rewrite <- app_assoc, length_app in IH. cbn [app length] in IH.
  by rewrite Nat.add_1_r in IH.
Qed.

(** Reading a list at as many distinct positions as it has elements reads
    all of it. *)
Lemma getitems_all {A} (l : list A) (idx : list nat) (xs : list A) :
  NoDup idx → length idx = length l →
  Forall2 (λ i x, l !! i = Some x) idx xs → xs ≡ₚ l.
Proof.
  intros Hnd Hlen Hf.
  assert (Hperm : idx ≡ₚ seq 0 (length l)).
  { apply submseteq_length_Permutation; [| rewrite length_seq; lia].
    apply NoDup_submseteq; [done |]. intros i [j Hj]%list_elem_of_lookup_1.
    destruct (Forall2_lookup_l _ _ _ _ _ Hf Hj) as (x & _ & Hx).
    apply elem_of_seq. apply lookup_lt_Some in Hx. lia. }
  rewrite (getitems_omap _ _ _ Hf), Hperm.
  pose proof (omap_lookup_seq [] l) as Hall. cbn [app length] in Hall.
  by rewrite Hall.
Qed.

(** When [num_pos] is the number of the user's ratings, the positives of
    every list of that user are all of the user's ratings, each once and
    with its own rating, in some order. *)
Theorem listwise_all_ratings_sampled (S : Sampler) (O : SetOrder)
    (g g' : rng_state S) (rating_dataset : list rating) (movie_dataset : list string)
    (train_n test_n num_pos num_neg : Z) (train test : list list_example)
    (e : list_example) :
  movielens_to_listwise S O g rating_dataset movie_dataset train_n test_n num_pos num_neg
  = Ok ((train, test), g') →
  e ∈ train ++ test →
  num_pos = Z.of_nat (length (rows_of rating_dataset (le_user_id e))) →
  ∃ picked, picked ≡ₚ rows_of rating_dataset (le_user_id e) ∧
    take (Z.to_nat num_pos) (le_movie_id e) = movie_id <$> picked ∧
    take (Z.to_nat num_pos) (le_user_rating e) = user_rating <$> picked.
Proof.
  intros Hrun He Hnp.
  destruct (movielens_to_listwise_Ok _ _ _ _ _ _ _ _ _ _ _ _ Hrun) as [Hsample _].
  destruct (Hsample e He)
    as (_ & _ & idx & pos_ids & pos_ratings & neg_ids
        & Hnd & Hlen & Hids & Hrs & _ & _ & _ & Heq_ids & Heq_rs).
  cbn [fl_movie_id fl_user_rating] in Hids, Hrs.
  destruct (sample_positive_rows _ _ _ _ Hids Hrs) as (picked & Hpicked & -> & ->).
  assert (Hlp : length picked = Z.to_nat num_pos)
    by (rewrite <- Hlen; symmetry; by eapply Forall2_length).
  exists picked. split_and!.
  - apply (getitems_all _ idx); [done | lia | done].
  - rewrite Heq_ids. by rewrite take_app_length' by by rewrite length_fmap.
  - rewrite Heq_rs. by rewrite take_app_length' by by rewrite length_fmap.
Qed.

Lemma listwise_all_ratings_sampled_witness :
  let rating_dataset := [Rating "U" "A" 5; Rating "U" "B" 3] in
  let e := ListExample "U" ["B"; "A"; "D"] [3%Q; 5%Q; 0%Q] in
  ∃ picked, picked ≡ₚ rows_of rating_dataset (le_user_id e) ∧
    take (Z.to_nat 2) (le_movie_id e) = movie_id <$> picked ∧
    take (Z.to_nat 2) (le_user_rating e) = user_rating <$> picked.
Proof.
  intros rating_dataset e.
  apply (listwise_all_ratings_sampled lcg_sampler canonical_order
           42%Z 1314989459%Z rating_dataset ["A"; "B"; "C"; "D"]%string 2 1 2 1
           [ListExample "U" ["A"; "B"; "C"] [5%Q; 3%Q; 0%Q]; e]
           [ListExample "U" ["A"; "B"; "C"] [5%Q; 3%Q; 0%Q]] e).
  - vm_compute. reflexivity.
  - right. by left.
  - reflexivity.
Defined.

(** * The tie-break of the sort *)

Lemma StronglySorted_of_lookup {A} (R : relation A) (l : list A) :
  (∀ i j x y, i < j → l !! i = Some x → l !! j = Some y → R x y) →
  StronglySorted R l.
Proof.
  induction l as [| a l IH]; intros Hl; constructor.
  - apply IH. intros i j x y Hij Hi Hj. apply (Hl (S i) (S j)); [lia | done..].
  - apply Forall_forall. intros y [j Hj]%list_elem_of_lookup_1.
    apply (Hl 0 (S j)); [lia | done..].
Qed.

Lemma argsort_unique (A B : Argsort) (a : list Q) :
  (∀ i j qi qj, a !! i = Some qi → a !! j = Some qj → (qi == qj)%Q → i = j) →
  A a = B a.
Proof.
  intros Hdistinct.
  apply (StronglySorted_unique_strong (value_le a)).
  - intros x y Hx Hy Hxy Hyx.
    rewrite (argsort_perm A a) in Hx. rewrite (argsort_perm B a) in Hy.
    apply elem_of_seq in Hx, Hy.
    destruct (lookup_lt_is_Some_2 a x ltac:(lia)) as [qx Hqx].
    destruct (lookup_lt_is_Some_2 a y ltac:(lia)) as [qy Hqy].
    apply (Hdistinct x y qx qy); [done | done |].
    apply Qle_antisym; [by apply Hxy | by apply Hyx].
  - apply StronglySorted_of_lookup. intros i j x y Hij Hi Hj qx qy Hqx Hqy.
    apply (argsort_sorted A a i j x y); [lia | done..].
  - apply StronglySorted_of_lookup. intros i j x y Hij Hi Hj qx qy Hqx Hqy.
    apply (argsort_sorted B a i j x y); [lia | done..].
  - by rewrite (argsort_perm A a), (argsort_perm B a).
Qed.

(** When no two movies have the same score, the K selected indices do not
    depend on how the sort breaks ties. *)
Theorem top_k_tie_break_irrelevant (A B : Argsort) (scores : list Q) (k : Z) :
  (∀ i j si sj, scores !! i = Some si → scores !! j = Some sj → (si == sj)%Q → i = j) →
  top_k A scores k = top_k B scores k.
Proof.
  intros Hdistinct. unfold top_k. f_equal. apply argsort_unique.
  intros i j qi qj Hi Hj Heq.
  apply list_lookup_fmap_Some in Hi as (si & -> & Hsi).
  apply list_lookup_fmap_Some in Hj as (sj & -> & Hsj).
  apply (Hdistinct i j si sj); [done | done |].
  rewrite <- (Qopp_involutive si), <- (Qopp_involutive sj). by rewrite Heq.
Qed.

(** The two reference sorts do differ on a tie. *)
Example tie_break_matters :
  top_k stable_argsort [1%Q; 1%Q] 1 = [0] ∧ top_k reversed_argsort [1%Q; 1%Q] 1 = [1].
Proof. split; vm_compute; reflexivity. Qed.

Lemma top_k_tie_break_irrelevant_witness :
  top_k stable_argsort [3%Q; 2%Q; 1%Q] 2 = top_k reversed_argsort [3%Q; 2%Q; 1%Q] 2.
Proof.
  apply (top_k_tie_break_irrelevant stable_argsort reversed_argsort [3%Q; 2%Q; 1%Q] 2).
  intros i j si sj Hi Hj Heq.
  destruct i as [| [| [| i]]], j as [| [| [| j]]]; simpl in Hi, Hj; try discriminate;
    try reflexivity; injection Hi as <-; injection Hj as <-; discriminate Heq.
Defined.
